(** * simple-offline-rag: the retrieval pipeline of [src/app/rag_pipeline.py]

    A shallow embedding of [LocalCorpus], [TfidfIndex], [OfflineAnswerer],
    [OpenAIAnswerer] and [RAGPipeline], and the properties of the
    specification stated over it.

    Conventions.
    - A Python [str] is a list of code points ([char := N]); [len] is
      [length] and [s[i:j]] is [slice].
    - Python [int]s are [Z]; list positions are [nat].
    - A raising call returns [Raise e] in the [result] type.
    - What the interpreter and the third-party packages provide (Unicode
      character tables, scikit-learn's vectorizer, NumPy's [argsort]) is
      taken through the classes [Unicode], [Tfidf] and [ArgSort]; concrete
      instances at the end of the definitions serve to run the model. *)

From Stdlib Require Import String Ascii DecimalString.
From Stdlib Require Import List ZArith QArith Bool Arith Lia Lqa.
From Stdlib Require Import Permutation Sorted.
Import ListNotations.

(* ================================================================= *)
(** ** Python values *)

Definition char := N.
Definition str := list char.

(** An ASCII literal as a Python string. *)
Definition lit (s : string) : str := map N_of_ascii (list_ascii_of_string s).

Definition char_eqb : char -> char -> bool := N.eqb.

Fixpoint str_eqb (a b : str) : bool :=
  match a, b with
  | [], [] => true
  | x :: a', y :: b' => char_eqb x y && str_eqb a' b'
  | _, _ => false
  end.

(** [a <= b] on strings: code point by code point, a prefix first. *)
Fixpoint str_leb (a b : str) : bool :=
  match a, b with
  | [], _ => true
  | _ :: _, [] => false
  | x :: a', y :: b' =>
      if N.ltb x y then true else if N.ltb y x then false else str_leb a' b'
  end.

(** Exceptions the pipeline can raise, with the message where the source
    gives one. *)
Inductive exn : Type :=
| AssertionError (msg : string)
| RuntimeError (msg : string)
| IndexError
| ValueError
| NotFittedError.

Inductive result (A : Type) : Type :=
| Return (a : A)
| Raise (e : exn).
Arguments Return {A} a.
Arguments Raise {A} e.

Definition bind {A B} (r : result A) (k : A -> result B) : result B :=
  match r with
  | Return a => k a
  | Raise e => Raise e
  end.

Notation "x <- r ;; k" := (bind r (fun x => k))
  (at level 61, r at next level, right associativity).

(** [PySlice_AdjustIndices] for a step of one: a negative bound counts
    from the end, and both bounds are clipped to the sequence. *)
Definition adjust_index (len i : Z) : Z :=
  if (i <? 0)%Z then Z.max 0 (i + len) else Z.min i len.

(** [l[start:stop]] *)
Definition slice {A} (l : list A) (start stop : Z) : list A :=
  let n := Z.of_nat (length l) in
  let a := adjust_index n start in
  let b := adjust_index n stop in
  firstn (Z.to_nat (b - a)) (skipn (Z.to_nat a) l).

(** [range(0, stop, step)] for a positive step: [ceil(stop / step)]
    multiples of [step]. *)
Definition range_step (stop step : Z) : list Z :=
  map (fun j => (Z.of_nat j * step)%Z)
      (seq 0 (Z.to_nat ((stop + step - 1) / step))).

(** [enumerate(l)] *)
Definition enumerate {A} (l : list A) : list (Z * A) :=
  combine (map Z.of_nat (seq 0 (length l))) l.

(** Insertion sort with a boolean "goes before" test; [sort_by] with a
    non-strict test keeps equal elements in their input order, as
    Python's [sorted] does. *)
Fixpoint insert_by {A} (before : A -> A -> bool) (x : A) (l : list A) : list A :=
  match l with
  | [] => [x]
  | y :: l' => if before x y then x :: l else y :: insert_by before x l'
  end.

Definition sort_by {A} (before : A -> A -> bool) (l : list A) : list A :=
  fold_right (insert_by before) [] l.

(** [before] settles the relation [R] between [x] and [y], one way or
    the other. *)
Definition decides {A} (before : A -> A -> bool) (R : A -> A -> Prop)
           (x y : A) : Prop :=
  (before x y = true -> R x y) /\ (before x y = false -> R y x).

(** The interpreter's character tables: [\s] and [str.strip] share
    [isspace], [\w] is [isword], and [str.lower] works on whole strings
    (a lowered code point may expand). *)
Class Unicode : Type := {
  isspace : char -> bool;
  isword : char -> bool;
  lower : str -> str
}.

Definition SPACE : char := 32%N.
Definition NEWLINE : char := 10%N.

Section Strings.
Context {U : Unicode}.

(** [re.sub(r"\s+", " ", text)]; [in_run] is set while inside a run of
    whitespace that already produced its space. *)
Fixpoint collapse_ws (in_run : bool) (text : str) : str :=
  match text with
  | [] => []
  | c :: rest =>
      if isspace c
      then if in_run then collapse_ws true rest
           else SPACE :: collapse_ws true rest
      else c :: collapse_ws false rest
  end.

Fixpoint lstrip (text : str) : str :=
  match text with
  | [] => []
  | c :: rest => if isspace c then lstrip rest else text
  end.

Definition rstrip (text : str) : str := rev (lstrip (rev text)).

(** [text.strip()] *)
Definition strip (text : str) : str := rstrip (lstrip text).
End Strings.

(* ================================================================= *)
(** ** Chunk and LocalCorpus *)

Record Chunk : Type := mkChunk {
  doc_id : str;
  chunk_id : Z;
  text : str
}.

Record LocalCorpus : Type := mkLocalCorpus {
  data_dir : str;
  chunk_size : Z;
  chunk_overlap : Z
}.

(** [LocalCorpus(data_dir)] with the default window. *)
Definition LocalCorpus_init (dir : str) : LocalCorpus :=
  mkLocalCorpus dir 600 80.

(** A directory entry: file name and decoded content.  The file system
    maps a directory path to its entries. *)
Definition File : Type := (str * str)%type.
Definition FileSystem : Type := str -> list File.

(** [name] ends with [suffix]. *)
Definition endswith (suffix name : str) : bool :=
  let n := length name in
  let m := length suffix in
  (m <=? n)%nat && str_eqb (skipn (n - m) name) suffix.

Section Corpus.
Context {U : Unicode}.

(** [re.sub(r"\s+", " ", text).strip()] *)
Definition normalize (txt : str) : str := strip (collapse_ws false txt).

(** [LocalCorpus._split_text] *)
Definition split_text (c : LocalCorpus) (txt : str) : list str :=
  let t := normalize txt in
  match t with
  | [] => []
  | _ :: _ =>
      let step := Z.max 1 (chunk_size c - chunk_overlap c) in
      map (fun i => slice t i (i + chunk_size c))
          (range_step (Z.of_nat (length t)) step)
  end.

(** The inner loop of [load]: the chunks of one file. *)
Definition file_chunks (c : LocalCorpus) (f : File) : list Chunk :=
  map (fun ich => mkChunk (fst f) (fst ich) (snd ich))
      (enumerate (split_text c (snd f))).

(** [sorted(self.data_dir.glob("*.txt"))] *)
Definition glob_txt (fs : FileSystem) (dir : str) : list File :=
  sort_by (fun a b => str_leb (fst a) (fst b))
          (filter (fun f => endswith (lit ".txt") (fst f)) (fs dir)).

(** [LocalCorpus.load] *)
Definition load (fs : FileSystem) (c : LocalCorpus) : list Chunk :=
  flat_map (file_chunks c) (glob_txt fs (data_dir c)).
End Corpus.

(** The [size] characters of [t] from offset [step * j], fewer when the
    text ends first. *)
Definition window (size step : nat) (t : str) (j : nat) : str :=
  firstn size (skipn (step * j) t).

(** Number of windows the default configuration cuts from a normalized
    text of [n] characters. *)
Definition window_count (n : nat) : nat := (n + 519) / 520.

(** The step of [_split_text]: [max(1, chunk_size - chunk_overlap)]. *)
Definition stride (c : LocalCorpus) : nat :=
  Z.to_nat (Z.max 1 (chunk_size c - chunk_overlap c)).

(** Number of chunks [_split_text] cuts from a normalized text of [n]
    characters. *)
Definition chunk_count (c : LocalCorpus) (n : nat) : nat :=
  (n + stride c - 1) / stride c.

(* ================================================================= *)
(** ** TfidfIndex *)

(** scikit-learn as the index uses it.  [fit] is the fitting half of
    [TfidfVectorizer(ngram_range=(1, 2), min_df=1, max_df=0.9).fit_transform]:
    [None] when it raises [ValueError] (empty vocabulary, every term
    pruned by [max_df], [max_df] below [min_df]), which leaves the
    vectorizer unfitted.  [transform] is one row of the fitted
    vectorizer's output, [cosine] one entry of [cosine_similarity];
    a finite double is the rational it denotes. *)
Class Tfidf : Type := {
  model : Type;
  vec : Type;
  fit : list str -> option model;
  transform : model -> str -> vec;
  cosine : vec -> vec -> Q
}.

(** [np.argsort] with the default [kind]: positions of the array in
    ascending order of their keys. *)
Class ArgSort : Type := {
  argsort : list Q -> list nat
}.

Section Index.
Context {T : Tfidf} {AS : ArgSort}.

Inductive Vectorizer : Type :=
| Unfitted
| Fitted (m : model).

Record TfidfIndex : Type := mkTfidfIndex {
  vectorizer : option Vectorizer;
  matrix : option (list vec);
  chunks : list Chunk
}.

(** [TfidfIndex()] *)
Definition TfidfIndex_init : TfidfIndex := mkTfidfIndex None None [].

(** [TfidfIndex.build]: the three assignments in source order; when
    [fit_transform] raises, [chunks] and the fresh vectorizer are
    already stored and [matrix] keeps its old value. *)
Definition TfidfIndex_build (s : TfidfIndex) (cs : list Chunk)
  : TfidfIndex * result unit :=
  let docs := map text cs in
  match fit docs with
  | Some m =>
      (mkTfidfIndex (Some (Fitted m)) (Some (map (transform m) docs)) cs,
       Return tt)
  | None =>
      (mkTfidfIndex (Some Unfitted) (matrix s) cs, Raise ValueError)
  end.

(** [cosine_similarity(qv, self.matrix)[0]] *)
Definition similarities (m : model) (mat : list vec) (query : str) : list Q :=
  map (cosine (transform m query)) mat.

(** [np.argsort(-sims)[:k]] *)
Definition ranked (sims : list Q) (k : Z) : list nat :=
  slice (argsort (map Qopp sims)) 0 k.

(** [[(self.chunks[i], float(sims[i])) for i in idxs]] *)
Fixpoint hits_at (cs : list Chunk) (sims : list Q) (idxs : list nat)
  : result (list (Chunk * Q)) :=
  match idxs with
  | [] => Return []
  | i :: rest =>
      match nth_error cs i, nth_error sims i with
      | Some c, Some x =>
          tl <- hits_at cs sims rest ;; Return ((c, x) :: tl)
      | _, _ => Raise IndexError
      end
  end.

(** [TfidfIndex.search] *)
Definition search (s : TfidfIndex) (query : str) (k : Z)
  : result (list (Chunk * Q)) :=
  match vectorizer s, matrix s with
  | Some v, Some mat =>
      match v with
      | Unfitted => Raise NotFittedError
      | Fitted m =>
          let sims := similarities m mat query in
          hits_at (chunks s) sims (ranked sims k)
      end
  | _, _ => Raise (AssertionError "Index not built")
  end.
End Index.

Arguments Vectorizer {T}.
Arguments TfidfIndex {T}.
Arguments TfidfIndex_init {T}.

(** An index on which no [build] has succeeded yet: the fresh one, and
    what a failing [build] leaves of such an index. *)
Inductive never_built {T : Tfidf} : TfidfIndex -> Prop :=
| never_built_init : never_built TfidfIndex_init
| never_built_failed (s s' : TfidfIndex) (cs : list Chunk) (e : exn) :
    never_built s ->
    TfidfIndex_build s cs = (s', Raise e) ->
    never_built s'.

(** The chunk a position outside the list would read. *)
Definition no_chunk : Chunk := mkChunk [] 0 [].

(** The similarity of a chunk to a query under a fitted model: the
    cosine of the two transformed texts. *)
Definition chunk_score {T : Tfidf} (m : model) (q : str) (c : Chunk) : Q :=
  cosine (transform m q) (transform m (text c)).

(** The key of position [i] in the array [a]. *)
Definition key_at (a : list Q) (i : nat) : Q := nth i a 0.

(** What NumPy documents for [argsort]: a permutation of the positions
    along which the keys ascend.  The default [kind] is quicksort, for
    which no order among equal keys is promised. *)
Class ArgSortSpec (AS : ArgSort) : Prop := {
  argsort_perm : forall a, Permutation (argsort a) (seq 0 (length a));
  argsort_sorted : forall a,
    StronglySorted (fun i j => key_at a i <= key_at a j) (argsort a)
}.

(** A stable [argsort] ([kind="stable"]): among equal keys the smaller
    position comes first. *)
Definition tie_order (a : list Q) (i j : nat) : Prop :=
  key_at a i < key_at a j \/ (key_at a i == key_at a j /\ (i < j)%nat).

Class ArgSortStable (AS : ArgSort) : Prop := {
  argsort_stable : forall a, StronglySorted (tie_order a) (argsort a)
}.

(* ================================================================= *)
(** ** OfflineAnswerer *)

Record OfflineAnswerer : Type := mkOfflineAnswerer {
  max_context_chars : Z
}.

(** [OfflineAnswerer()] *)
Definition OfflineAnswerer_init : OfflineAnswerer := mkOfflineAnswerer 2000.

Definition Hit : Type := (Chunk * Q)%type.

Definition str_eq_dec : forall a b : str, {a = b} + {a <> b} :=
  list_eq_dec N.eq_dec.

(** [set(l)] as a list without repetition. *)
Definition set_of (l : list str) : list str := nodup str_eq_dec l.

(** [len(a & b)] for two sets. *)
Definition inter_size (a b : list str) : Z :=
  Z.of_nat (length (filter (fun x => existsb (str_eqb x) b) a)).

(** [round(0.2 * n)] for an [int] [n >= 0]: [n / 5] is never half way
    between two integers, so rounding half to even is rounding to the
    nearest one. *)
Definition round_fifth (n : Z) : Z := ((n + 2) / 5)%Z.

Fixpoint startswith (p s : str) : bool :=
  match p, s with
  | [], _ => true
  | _ :: _, [] => false
  | x :: p', y :: s' => char_eqb x y && startswith p' s'
  end.

(** [p in s] *)
Fixpoint contains (s p : str) : bool :=
  startswith p s ||
  match s with
  | [] => false
  | _ :: s' => contains s' p
  end.

(** ["sep".join(l)] *)
Fixpoint join (sep : str) (l : list str) : str :=
  match l with
  | [] => []
  | [x] => x
  | x :: rest => x ++ sep ++ join sep rest
  end.

(** [str(n)] for an [int]. *)
Definition str_of_int (n : Z) : str :=
  lit (NilZero.string_of_int (Z.to_int n)).

(** One of [.], [!], [?]. *)
Definition is_terminator (c : char) : bool :=
  N.eqb c 46 || N.eqb c 33 || N.eqb c 63.

Definition NOTHING_FOUND : str :=
  lit "I couldn't find anything relevant in the local corpus.".

Definition HEADER : str := lit "Answer (offline):" ++ [NEWLINE].

Definition FOOTER : str :=
  [NEWLINE; NEWLINE] ++
  lit "(This answer was composed from retrieved local text with citations.)".

(** [f"[{ch.doc_id}#{ch.chunk_id}]"] *)
Definition cite (ch : Chunk) : str :=
  lit "[" ++ doc_id ch ++ lit "#" ++ str_of_int (chunk_id ch) ++ lit "]".

(** [f"- {sent} {cite}"] *)
Definition bullet (p : str * Chunk) : str :=
  lit "- " ++ fst p ++ lit " " ++ cite (snd p).

(** The separator [answer] puts before a snippet: a newline unless the
    context is still empty. *)
Definition context_sep (context : str) : str :=
  match context with
  | [] => []
  | _ :: _ => [NEWLINE]
  end.

(** The string [answer] returns for the attributed sentences [picked]. *)
Definition render (picked : list (str * Chunk)) : str :=
  HEADER ++ join [NEWLINE] (map bullet (firstn 5 picked)) ++ FOOTER.

Section Offline.
Context {U : Unicode}.

(** [re.findall(r"\w+", s)]; [cur] is the word being read, reversed. *)
Fixpoint findall_words_from (cur : str) (s : str) : list str :=
  match s with
  | [] => match cur with [] => [] | _ :: _ => [rev cur] end
  | c :: rest =>
      if isword c then findall_words_from (c :: cur) rest
      else match cur with
           | [] => findall_words_from [] rest
           | _ :: _ => rev cur :: findall_words_from [] rest
           end
  end.

Definition findall_words (s : str) : list str := findall_words_from [] s.

(** [set(re.findall(r"\w+", s.lower()))] *)
Definition word_set (s : str) : list str := set_of (findall_words (lower s)).

(** The lookbehind of the sentence separator: the text read so far
    (reversed) ends in a terminator. *)
Definition after_terminator (cur : str) : bool :=
  match cur with
  | [] => false
  | p :: _ => is_terminator p
  end.

(** [re.split(r"(?<=[.!?])\s+", s)]: a separator is a maximal run of
    whitespace that directly follows a terminator.  [cur] is the
    piece being read, reversed; [in_sep] is set inside a separator. *)
Fixpoint split_sentences_from (in_sep : bool) (cur : str) (s : str) : list str :=
  match s with
  | [] => [rev cur]
  | c :: rest =>
      if isspace c
      then if in_sep then split_sentences_from true cur rest
           else if after_terminator cur
                then rev cur :: split_sentences_from true [] rest
                else split_sentences_from false (c :: cur) rest
      else split_sentences_from false (c :: cur) rest
  end.

Definition split_sentences (s : str) : list str :=
  split_sentences_from false [] s.

(** The context loop of [answer], from the buffer [context] and the
    list [chosen] built so far. *)
Fixpoint take_context (maxc : Z) (hits : list Hit) (context : str)
         (chosen : list Hit) : str * list Hit :=
  match hits with
  | [] => (context, chosen)
  | (ch, score) :: rest =>
      let snippet := strip (text ch) in
      if (Z.of_nat (length context) + Z.of_nat (length snippet) + 1 >? maxc)%Z
      then (context, chosen)
      else take_context maxc rest
             (context ++ match context with
                         | [] => []
                         | _ :: _ => [NEWLINE]
                         end ++ snippet)
             (chosen ++ [(ch, score)])
  end.

(** [len(terms & toks) >= max(1, round(0.2 * max(len(terms), 1)))] *)
Definition meets_threshold (terms : list str) (sent : str) : bool :=
  let toks := word_set sent in
  (Z.max 1 (round_fifth (Z.max (Z.of_nat (length terms)) 1))
   <=? inter_size terms toks)%Z.

(** The inner loop over [chosen]: the first chunk whose text contains
    the stripped sentence. *)
Definition attribute (chosen : list Hit) (sent : str) : list (str * Chunk) :=
  let s := strip sent in
  match find (fun h : Hit =>
                match s with
                | [] => false
                | _ :: _ => contains (text (fst h)) s
                end) chosen with
  | Some h => [(s, fst h)]
  | None => []
  end.

(** The loop over [sentences] that fills [picked]. *)
Definition pick (terms : list str) (chosen : list Hit) (sentences : list str)
  : list (str * Chunk) :=
  flat_map (fun sent =>
              if meets_threshold terms sent then attribute chosen sent else [])
           sentences.

(** [ch.text.strip()] for the chunk of a hit. *)
Definition snippet (h : Hit) : str := strip (text (fst h)).

(** The context after the snippets of [taken] were appended to it. *)
Definition extend_context (context : str) (taken : list Hit) : str :=
  fold_left (fun ctx h => ctx ++ context_sep ctx ++ snippet h) taken context.

(** [OfflineAnswerer.answer] *)
Definition OfflineAnswerer_answer (a : OfflineAnswerer) (query : str)
           (hits : list Hit) : result str :=
  match hits with
  | [] => Return NOTHING_FOUND
  | _ :: _ =>
      let '(context, chosen) := take_context (max_context_chars a) hits [] [] in
      let terms := word_set query in
      let sentences := split_sentences context in
      let picked := pick terms chosen sentences in
      picked' <-
        match picked with
        | _ :: _ => Return picked
        | [] =>
            match chosen with
            | [] => Raise IndexError
            | (top_ch, _) :: _ =>
                match split_sentences (strip (text top_ch)) with
                | [] => Raise IndexError
                | first :: _ => Return [(first, top_ch)]
                end
            end
        end ;;
      Return (render picked')
  end.
End Offline.

(* ================================================================= *)
(** ** OpenAIAnswerer *)

(** The process environment, as [os.getenv] reads it. *)
Definition Environ : Type := str -> option str.

Definition getenv (env : Environ) (name : str) : option str := env name.

Record OpenAIAnswerer : Type := mkOpenAIAnswerer {
  model_name : str;
  api_key : str
}.

Definition KEY_NOT_SET : exn :=
  RuntimeError "OPENAI_API_KEY not set. Use OfflineAnswerer or set the key.".

(** [OpenAIAnswerer.__init__]: [not self.api_key] holds for [None] and
    for the empty string. *)
Definition OpenAIAnswerer_init (env : Environ) (mdl : str) : result OpenAIAnswerer :=
  match getenv env (lit "OPENAI_API_KEY") with
  | Some (c :: key) => Return (mkOpenAIAnswerer mdl (c :: key))
  | Some [] => Raise KEY_NOT_SET
  | None => Raise KEY_NOT_SET
  end.

(** The chat completion endpoint: from the key, the model, the system
    and the user message to the first choice's content, or the
    exception of the transport. *)
Class ChatService : Type := {
  post_chat : str -> str -> str -> str -> result str
}.

Definition SYSTEM_PROMPT : str :=
  lit "You are a helpful assistant. Answer using ONLY the provided context. " ++
  lit "Cite sources inline like [doc#chunk]. If information is missing, say so.".

Section Delegated.
Context {U : Unicode} {C : ChatService}.

(** [f"[{ch.doc_id}#{ch.chunk_id}]\n{ch.text.strip()}"] *)
Definition context_part (h : Hit) : str :=
  cite (fst h) ++ [NEWLINE] ++ strip (text (fst h)).

(** [OpenAIAnswerer.answer] *)
Definition OpenAIAnswerer_answer (a : OpenAIAnswerer) (query : str)
           (hits : list Hit) : result str :=
  let context := join [NEWLINE; NEWLINE] (slice (map context_part hits) 0 6) in
  let user := lit "Question: " ++ query ++ [NEWLINE; NEWLINE] ++
              lit "Context:" ++ [NEWLINE] ++ context in
  content <- post_chat (api_key a) (model_name a) SYSTEM_PROMPT user ;;
  Return (strip content).
End Delegated.

(* ================================================================= *)
(** ** RAGPipeline *)

Inductive Answerer : Type :=
| Offline (a : OfflineAnswerer)
| OpenAI (a : OpenAIAnswerer).

Record SourceDict : Type := mkSourceDict {
  doc : str;
  chunk : Z;
  score : Q;
  preview : str
}.

Record QueryResult : Type := mkQueryResult {
  answer : str;
  sources : list SourceDict
}.

Definition NO_TXT_FILES : exn :=
  RuntimeError "No .txt files found in data directory.".

Section Pipeline.
Context {U : Unicode} {T : Tfidf} {AS : ArgSort} {C : ChatService}.

Record RAGPipeline : Type := mkRAGPipeline {
  corpus : LocalCorpus;
  index : TfidfIndex;
  answerer : Answerer
}.

(** [RAGPipeline.__init__] *)
Definition RAGPipeline_init (env : Environ) (dir : str) (use_openai : bool)
           (mdl : str) : result RAGPipeline :=
  ans <- (if use_openai
          then a <- OpenAIAnswerer_init env mdl ;; Return (OpenAI a)
          else Return (Offline OfflineAnswerer_init)) ;;
  Return (mkRAGPipeline (LocalCorpus_init dir) TfidfIndex_init ans).

(** [RAGPipeline.build] *)
Definition RAGPipeline_build (fs : FileSystem) (p : RAGPipeline)
  : RAGPipeline * result unit :=
  match load fs (corpus p) with
  | [] => (p, Raise NO_TXT_FILES)
  | cs =>
      let (idx, r) := TfidfIndex_build (index p) cs in
      (mkRAGPipeline (corpus p) idx (answerer p), r)
  end.

Definition Answerer_answer (a : Answerer) (q : str) (hits : list Hit)
  : result str :=
  match a with
  | Offline o => OfflineAnswerer_answer o q hits
  | OpenAI o => OpenAIAnswerer_answer o q hits
  end.

(** [RAGPipeline.query] *)
Definition RAGPipeline_query (p : RAGPipeline) (q : str) (k : Z)
  : result QueryResult :=
  hits <- search (index p) q k ;;
  ans <- Answerer_answer (answerer p) q hits ;;
  Return (mkQueryResult ans
            (map (fun h : Hit =>
                    mkSourceDict (doc_id (fst h)) (chunk_id (fst h)) (snd h)
                                 (slice (text (fst h)) 0 160))
                 hits)).
End Pipeline.

(* ================================================================= *)
(** ** Instances to run the model *)

(** The character tables on U+0000..U+007F, where they agree with
    CPython; every other code point is left unclassified and unchanged. *)
Definition latin_isspace (c : char) : bool :=
  ((9 <=? c) && (c <=? 13) || (28 <=? c) && (c <=? 32))%N.

Definition latin_isword (c : char) : bool :=
  ((48 <=? c) && (c <=? 57) || (65 <=? c) && (c <=? 90) ||
   (97 <=? c) && (c <=? 122) || (c =? 95))%N.

Definition latin_lower (s : str) : str :=
  map (fun c => if ((65 <=? c) && (c <=? 90))%N then (c + 32)%N else c) s.

Definition basic_latin : Unicode :=
  {| isspace := latin_isspace; isword := latin_isword; lower := latin_lower |}.

(** A small vector space to run the index on: the model is the
    vocabulary of the documents, a row counts each vocabulary word, and
    the similarity is the dot product.  It stands in for scikit-learn's
    weights, which no property below depends on. *)
Definition count_words {U : Unicode} (vocab : list str) (s : str) : list Z :=
  let ws := findall_words (lower s) in
  map (fun w => Z.of_nat (count_occ str_eq_dec ws w)) vocab.

Fixpoint dot (a b : list Z) : Z :=
  match a, b with
  | x :: a', y :: b' => (x * y + dot a' b')%Z
  | _, _ => 0%Z
  end.

Definition word_counts {U : Unicode} : Tfidf :=
  {| model := list str;
     vec := list Z;
     fit := fun docs =>
              match set_of (flat_map (fun d => findall_words (lower d)) docs) with
              | [] => None
              | v => Some v
              end;
     transform := count_words;
     cosine := fun a b => inject_Z (dot a b) |}.

(** A stable sort that meets [ArgSortSpec], as [kind="stable"] would
    give: equal keys stay in position order. *)
Definition argsort_with (before : Q -> Q -> bool) (a : list Q) : list nat :=
  sort_by (fun i j => before (key_at a i) (key_at a j)) (seq 0 (length a)).

Definition stable_argsort : ArgSort :=
  {| argsort := argsort_with Qle_bool |}.

(* ================================================================= *)
(** ** NumPy's default sort

    [np.argsort(x)] with the default [kind] fills an index array with
    [0 .. n-1] and runs [aquicksort_] of [npysort/quicksort.cpp] on it,
    an introsort: partitions of more than [SMALL_QUICKSORT + 1] elements
    are split around the median of three, smaller ones are finished by
    insertion sort, and a partition whose depth budget is used up goes
    to heap sort.  This is the generic routine; the vectorised
    replacements some x86 builds select are not modelled.  Loops that
    the C code ends by a sentinel take a fuel and give [None] if it
    runs out. *)

(** [Tag::less] on finite doubles. *)
Definition LT (x y : Q) : bool := negb (Qle_bool y x).

Definition SMALL_QUICKSORT : Z := 16.

(** [a[i]] and [a[i] = x] on the index array. *)
Definition aget (a : list nat) (i : Z) : nat := nth (Z.to_nat i) a 0%nat.

Fixpoint set_nth (a : list nat) (n : nat) (x : nat) : list nat :=
  match a, n with
  | [], _ => []
  | _ :: t, O => x :: t
  | y :: t, S n' => y :: set_nth t n' x
  end.

Definition aset (a : list nat) (i : Z) (x : nat) : list nat :=
  set_nth a (Z.to_nat i) x.

(** [INTP_SWAP(a[i], a[j])] *)
Definition INTP_SWAP (a : list nat) (i j : Z) : list nat :=
  aset (aset a i (aget a j)) j (aget a i).

(** [v[a[i]]] *)
Definition vkey (v : list Q) (a : list nat) (i : Z) : Q := key_at v (aget a i).

(** [npy_get_msb] *)
Definition npy_get_msb (n : Z) : Z := Z.log2 n.

(** [do { ++pi; } while (less(v[*pi], vp));] *)
Fixpoint scan_up (fuel : nat) (v : list Q) (a : list nat) (vp : Q) (pi : Z)
  : option Z :=
  match fuel with
  | O => None
  | S f =>
      let pi' := (pi + 1)%Z in
      if LT (vkey v a pi') vp then scan_up f v a vp pi' else Some pi'
  end.

(** [do { --pj; } while (less(vp, v[*pj]));] *)
Fixpoint scan_down (fuel : nat) (v : list Q) (a : list nat) (vp : Q) (pj : Z)
  : option Z :=
  match fuel with
  | O => None
  | S f =>
      let pj' := (pj - 1)%Z in
      if LT vp (vkey v a pj') then scan_down f v a vp pj' else Some pj'
  end.

(** The [for (;;)] loop of the partition. *)
Fixpoint partition_loop (fuel : nat) (v : list Q) (a : list nat) (vp : Q)
         (pi pj : Z) : option (list nat * Z) :=
  match fuel with
  | O => None
  | S f =>
      match scan_up (length a) v a vp pi with
      | None => None
      | Some pi' =>
          match scan_down (length a) v a vp pj with
          | None => None
          | Some pj' =>
              if (pi' >=? pj')%Z then Some (a, pi')
              else partition_loop f v (INTP_SWAP a pi' pj') vp pi' pj'
          end
      end
  end.

(** One partition of [a[pl..pr]]: median of three, pivot parked at
    [pr - 1], the scan, pivot moved to its place [pi]. *)
Definition partition (v : list Q) (a : list nat) (pl pr : Z)
  : option (list nat * Z) :=
  let pm := (pl + Z.shiftr (pr - pl) 1)%Z in
  let a := if LT (vkey v a pm) (vkey v a pl) then INTP_SWAP a pm pl else a in
  let a := if LT (vkey v a pr) (vkey v a pm) then INTP_SWAP a pr pm else a in
  let a := if LT (vkey v a pm) (vkey v a pl) then INTP_SWAP a pm pl else a in
  let vp := vkey v a pm in
  let pj := (pr - 1)%Z in
  let a := INTP_SWAP a pm pj in
  match partition_loop (length a) v a vp pl pj with
  | None => None
  | Some (a, pi) => Some (INTP_SWAP a pi (pr - 1), pi)
  end.

(** [while (pj > pl && less(vp, v[*pk])) { *pj-- = *pk--; }] with
    [pk = pj - 1]; [fuel] is [pj - pl]. *)
Fixpoint shift_right (fuel : nat) (v : list Q) (a : list nat) (vp : Q)
         (pl pj : Z) : list nat * Z :=
  match fuel with
  | O => (a, pj)
  | S f =>
      if (pj >? pl)%Z && LT vp (vkey v a (pj - 1))
      then shift_right f v (aset a pj (aget a (pj - 1))) vp pl (pj - 1)
      else (a, pj)
  end.

(** The insertion sort of [a[pl..pr]]. *)
Definition insertion_sort (v : list Q) (a : list nat) (pl pr : Z) : list nat :=
  fold_left
    (fun a t =>
       let pi := (pl + 1 + Z.of_nat t)%Z in
       let vi := aget a pi in
       let '(a', pj) := shift_right (Z.to_nat (pi - pl)) v a (key_at v vi) pl pi in
       aset a' pj vi)
    (seq 0 (Z.to_nat (pr - pl))) a.

(** The sift loop of the heap sort on the [n] positions from [base]
    (one-based: position [j] is [a[base + j - 1]]). *)
Fixpoint sift (fuel : nat) (v : list Q) (a : list nat) (base : Z) (tmp : nat)
         (i j n : Z) : option (list nat) :=
  match fuel with
  | O => None
  | S f =>
      if (j <=? n)%Z
      then
        let j' := if (j <? n)%Z &&
                     LT (vkey v a (base + j - 1)) (vkey v a (base + j))
                  then (j + 1)%Z else j in
        if LT (key_at v tmp) (vkey v a (base + j' - 1))
        then sift f v (aset a (base + i - 1) (aget a (base + j' - 1)))
                  base tmp j' (j' + j') n
        else Some (aset a (base + i - 1) tmp)
      else Some (aset a (base + i - 1) tmp)
  end.

(** [aheapsort_] on [a[base .. base + n - 1]]. *)
Definition aheapsort (v : list Q) (a : list nat) (base n : Z)
  : option (list nat) :=
  let build :=
    fold_left
      (fun oa t =>
         match oa with
         | None => None
         | Some a =>
             let l := (Z.shiftr n 1 - Z.of_nat t)%Z in
             sift (S (length a)) v a base (aget a (base + l - 1)) l (l * 2) n
         end)
      (seq 0 (Z.to_nat (Z.shiftr n 1))) (Some a) in
  fold_left
    (fun oa t =>
       match oa with
       | None => None
       | Some a =>
           let m := (n - Z.of_nat t)%Z in
           let tmp := aget a (base + m - 1) in
           let a := aset a (base + m - 1) (aget a base) in
           sift (S (length a)) v a base tmp 1 2 (m - 1)
       end)
    (seq 0 (Z.to_nat (n - 1))) build.

(** The frames of the explicit stack: bounds and depth budget. *)
Definition Frame : Type := (Z * Z * Z)%type.

(** The outer [while (1)] of [aquicksort_], entered with the partition
    [a[pl..pr]] and its depth budget. *)
Fixpoint quick_loop (fuel : nat) (v : list Q) (a : list nat)
         (pl pr cdepth : Z) (stack : list Frame) : option (list nat) :=
  match fuel with
  | O => None
  | S f =>
      let stack_pop (a : list nat) (stack : list Frame) :=
        match stack with
        | [] => Some a
        | (pl', pr', d) :: rest => quick_loop f v a pl' pr' d rest
        end in
      if (cdepth <? 0)%Z
      then match aheapsort v a pl (pr - pl + 1) with
           | None => None
           | Some a' => stack_pop a' stack
           end
      else
        (fix inner (g : nat) (a : list nat) (pl pr cdepth : Z)
             (stack : list Frame) {struct g} : option (list nat) :=
           match g with
           | O => None
           | S g' =>
               if (pr - pl >? SMALL_QUICKSORT)%Z
               then match partition v a pl pr with
                    | None => None
                    | Some (a', pi) =>
                        let cdepth' := (cdepth - 1)%Z in
                        if (pi - pl <? pr - pi)%Z
                        then inner g' a' pl (pi - 1)%Z cdepth'
                                   ((pi + 1, pr, cdepth')%Z :: stack)
                        else inner g' a' (pi + 1)%Z pr cdepth'
                                   ((pl, pi - 1, cdepth')%Z :: stack)
                    end
               else stack_pop (insertion_sort v a pl pr) stack
           end) (S (length a)) a pl pr cdepth stack
  end.

(** [npy_aquicksort] on the identity index array over the keys [v]. *)
Definition aquicksort (v : list Q) : option (list nat) :=
  let n := Z.of_nat (length v) in
  quick_loop (S (length v)) v (seq 0 (length v)) 0 (n - 1)
             (npy_get_msb n * 2) [].

Definition numpy_argsort : ArgSort :=
  {| argsort := fun v => match aquicksort v with
                         | Some a => a
                         | None => []
                         end |}.

(** The two-file corpus of [tests/test_rag.py], chunked, and the index
    built over it. *)
Definition latin_counts : Tfidf := @word_counts basic_latin.

Definition chunk_a : Chunk :=
  mkChunk (lit "a.txt") 0
          (lit "RAG retrieves documents. It reduces hallucinations.").

Definition chunk_b : Chunk :=
  mkChunk (lit "b.txt") 0
          (lit "TF-IDF is a classic retrieval method using term weights.").

Definition sample_chunks : list Chunk := [chunk_a; chunk_b].

Definition sample_index : @TfidfIndex latin_counts :=
  fst (@TfidfIndex_build latin_counts TfidfIndex_init sample_chunks).

(** The data directory of [tests/test_rag.py], listed in some order,
    with a file that is not a text file. *)
Definition sample_fs : FileSystem :=
  fun _ =>
    [(lit "b.txt", text chunk_b);
     (lit "notes.md", lit "RAG retrieves documents.");
     (lit "a.txt", text chunk_a)].

(** The same directory listed in another order. *)
Definition sample_fs_relisted : FileSystem :=
  fun _ =>
    [(lit "a.txt", text chunk_a);
     (lit "b.txt", text chunk_b);
     (lit "notes.md", lit "RAG retrieves documents.")].

(** A data directory without any [.txt] file, and two environments. *)
Definition no_txt_fs : FileSystem :=
  fun _ => [(lit "notes.md", lit "RAG retrieves documents.")].

Definition env_without_key : Environ := fun _ => None.

Definition env_with_empty_key : Environ :=
  fun name => if str_eqb name (lit "OPENAI_API_KEY") then Some [] else None.

Definition env_with_key : Environ :=
  fun name => if str_eqb name (lit "OPENAI_API_KEY")
              then Some (lit "sk-test") else None.

(** A hit whose text alone fills the default context budget. *)
Definition oversized_hit : Hit :=
  (mkChunk (lit "a.txt") 0 (repeat 120%N 2000), 1).

(** Eighteen one-chunk documents [d10.txt .. d27.txt] on eighteen
    topics, and the index built over them. *)
Definition tie_chunks : list Chunk :=
  map (fun j =>
         let n := str_of_int (10 + Z.of_nat j) in
         mkChunk (lit "d" ++ n ++ lit ".txt") 0 (lit "topic" ++ n))
      (seq 0 18).

Definition tie_index : @TfidfIndex latin_counts :=
  fst (@TfidfIndex_build latin_counts TfidfIndex_init tie_chunks).

(** An endpoint that always fails; the offline path never calls it. *)
Definition no_network : ChatService :=
  {| post_chat := fun _ _ _ _ => Raise (RuntimeError "no network") |}.

(* ================================================================= *)
(** ** Properties the specification names *)

(** Every chunk but the last of a document has exactly 600 characters. *)
Definition only_final_chunk_short (U : Unicode) : Prop :=
  forall txt j,
    let cs := split_text (LocalCorpus_init []) txt in
    (S j < length cs)%nat -> length (nth j cs []) = 600%nat.

(** Chunks of equal similarity come out of [search] in the order they
    have in the index ([cs] without repetition, as chunk identities are
    unique). *)
Definition ties_in_chunk_order (T : Tfidf) (AS : ArgSort) : Prop :=
  forall (s0 s : TfidfIndex) (cs : list Chunk) (q : str) (k : Z)
         (hits : list Hit),
    TfidfIndex_build s0 cs = (s, Return tt) ->
    NoDup cs ->
    search s q k = Return hits ->
    forall (p p' i j : nat) (h h' : Hit),
      (p < p')%nat ->
      nth_error hits p = Some h -> nth_error hits p' = Some h' ->
      snd h == snd h' ->
      nth_error cs i = Some (fst h) -> nth_error cs j = Some (fst h') ->
      (i < j)%nat.

(** [search] with [k = 0] on a built index is refused as not built. *)
Definition search_refuses_zero_k (T : Tfidf) (AS : ArgSort) : Prop :=
  forall (s0 s : TfidfIndex) (cs : list Chunk) (q : str),
    TfidfIndex_build s0 cs = (s, Return tt) ->
    search s q 0 = Raise (AssertionError "Index not built").

(** [load] has no raising path: its outcome is the normal return of
    its list. *)
Definition load_outcome {U : Unicode} (fs : FileSystem) (c : LocalCorpus)
  : result (list Chunk) :=
  Return (load fs c).

(** [load] raises when the directory has no eligible file. *)
Definition load_raises_without_files (U : Unicode) : Prop :=
  forall (fs : FileSystem) (c : LocalCorpus),
    glob_txt fs (data_dir c) = [] ->
    exists e, load_outcome fs c = Raise e.

(** Construction succeeds whenever the environment holds the variable. *)
Definition key_present_suffices : Prop :=
  forall (env : Environ) (mdl key : str),
    getenv env (lit "OPENAI_API_KEY") = Some key ->
    exists a, OpenAIAnswerer_init env mdl = Return a.

(* ================================================================= *)
(** * Properties *)

(** ** Slices, ranges and enumeration *)

Lemma firstn_min_length {A} (l : list A) (m : nat) :
  firstn (Nat.min m (length l)) l = firstn m l.
Proof.
  destruct (Nat.le_ge_cases m (length l)) as [Hle | Hge].
  - now rewrite Nat.min_l.
  - rewrite Nat.min_r by assumption.
    now rewrite !firstn_all2 by lia.
Qed.

(** [l[:k]] keeps the first [k] elements when [k] is not negative. *)
Lemma slice_prefix {A} (l : list A) (k : Z) :
  (0 <= k)%Z -> slice l 0 k = firstn (Z.to_nat k) l.
Proof.
  intros Hk. unfold slice, adjust_index.
  destruct (Z.ltb_spec 0 0); [lia |].
  destruct (Z.ltb_spec k 0); [lia |].
  rewrite (Z.min_l 0) by lia. cbn [Z.to_nat skipn].
  rewrite Z.sub_0_r, <- (firstn_min_length l (Z.to_nat k)).
  f_equal. lia.
Qed.

(** [l[i:i+size]] inside the sequence is the window of [size] elements
    at [i], cut at the end of the sequence. *)
Lemma slice_window {A} (l : list A) (i size : Z) :
  (0 <= i <= Z.of_nat (length l))%Z -> (0 <= size)%Z ->
  slice l i (i + size) = firstn (Z.to_nat size) (skipn (Z.to_nat i) l).
Proof.
  intros Hi Hs. unfold slice, adjust_index.
  destruct (Z.ltb_spec i 0); [lia |].
  destruct (Z.ltb_spec (i + size) 0); [lia |].
  rewrite (Z.min_l i) by lia.
  rewrite <- (firstn_min_length (skipn (Z.to_nat i) l) (Z.to_nat size)).
  f_equal. rewrite length_skipn. lia.
Qed.

Lemma combine_seq_map {A} (f : nat -> A) (n s : nat) :
  combine (map Z.of_nat (seq s n)) (map f (seq s n))
  = map (fun j => (Z.of_nat j, f j)) (seq s n).
Proof.
  revert s. induction n as [| n IH]; intros s; cbn; [reflexivity |].
  now rewrite IH.
Qed.

Lemma enumerate_map_seq {A} (f : nat -> A) (n : nat) :
  enumerate (map f (seq 0 n)) = map (fun j => (Z.of_nat j, f j)) (seq 0 n).
Proof.
  unfold enumerate. rewrite length_map, length_seq. apply combine_seq_map.
Qed.

(** Every element of [range(0, stop, step)] is below [stop]. *)
Lemma range_step_below (stop step : Z) (j : nat) :
  (0 < step)%Z ->
  (j < Z.to_nat ((stop + step - 1) / step))%nat ->
  (0 <= Z.of_nat j * step < stop)%Z.
Proof.
  intros Hstep Hj.
  assert (Hd : (step * ((stop + step - 1) / step) <= stop + step - 1)%Z)
    by (apply Z.mul_div_le; lia).
  assert (Hq : (Z.of_nat j + 1 <= (stop + step - 1) / step)%Z) by lia.
  split; nia.
Qed.

(** ** LocalCorpus *)

Section CorpusFacts.
Context {U : Unicode}.

Lemma split_text_windows (c : LocalCorpus) (txt : str) :
  (0 <= chunk_size c)%Z ->
  let step := Z.max 1 (chunk_size c - chunk_overlap c) in
  let t := normalize txt in
  split_text c txt
  = map (window (Z.to_nat (chunk_size c)) (Z.to_nat step) t)
        (seq 0 (Z.to_nat ((Z.of_nat (length t) + step - 1) / step))).
Proof.
  intros Hsize step t. unfold split_text. fold t.
  fold step.
  assert (Hstep : (0 < step)%Z) by (unfold step; lia).
  destruct t as [| c0 t0] eqn:Et.
  - cbn [length Z.of_nat].
    replace ((0 + step - 1) / step)%Z with 0%Z; [reflexivity |].
    symmetry. apply Z.div_small. lia.
  - rewrite <- Et. unfold range_step. rewrite map_map.
    apply map_ext_in. intros j Hj. apply in_seq in Hj.
    destruct (range_step_below (Z.of_nat (length t)) step j Hstep) as [H0 H1];
      [lia |].
    rewrite slice_window by lia.
    unfold window. do 2 f_equal. nia.
Qed.

Lemma window_length (size step : nat) (t : str) (j : nat) :
  length (window size step t j) = Nat.min size (length t - step * j).
Proof. unfold window. now rewrite length_firstn, length_skipn. Qed.

Lemma file_chunks_default (dir name txt : str) :
  let t := normalize txt in
  file_chunks (LocalCorpus_init dir) (name, txt)
  = map (fun j => mkChunk name (Z.of_nat j) (window 600 520 t j))
        (seq 0 (window_count (length t))).
Proof.
  intros t. unfold file_chunks. cbn [fst snd].
  rewrite split_text_windows by (cbn; lia). fold t.
  cbn [LocalCorpus_init chunk_size chunk_overlap].
  replace (Z.max 1 (600 - 80)) with 520%Z by reflexivity.
  replace (Z.to_nat ((Z.of_nat (length t) + 520 - 1) / 520))
    with (window_count (length t)).
  - rewrite enumerate_map_seq, map_map. reflexivity.
  - unfold window_count.
    replace (Z.of_nat (length t) + 520 - 1)%Z
      with (Z.of_nat (length t + 519)) by lia.
    change 520%Z with (Z.of_nat 520).
    now rewrite <- Nat2Z.inj_div, Nat2Z.id.
Qed.
End CorpusFacts.

(** C5, as amended.  With the default window (600 characters, overlap
    80) a document whose normalized text [t] is not empty yields one
    chunk per offset 0, 520, 1040, ... below [length t]; the chunk at
    position [j] carries the index [j] and the [min 600 (length t - 520 j)]
    characters of [t] from offset [520 j], so it has 600 characters
    whenever that many remain.  A document whose normalized text is
    empty yields no chunk. *)
Theorem default_chunking (U : Unicode) (dir name txt : str) :
  let t := normalize txt in
  let n := window_count (length t) in
  (t <> [] ->
   (0 < n)%nat /\
   file_chunks (LocalCorpus_init dir) (name, txt)
   = map (fun j => mkChunk name (Z.of_nat j) (window 600 520 t j)) (seq 0 n) /\
   (forall j, (j < n)%nat ->
      (520 * j < length t)%nat /\
      length (window 600 520 t j) = Nat.min 600 (length t - 520 * j))) /\
  (t = [] -> file_chunks (LocalCorpus_init dir) (name, txt) = []).
Proof.
  intros t n. split.
  - intros Hne.
    assert (Hlen : (1 <= length t)%nat)
      by (destruct t; [congruence | cbn; lia]).
    assert (Hmul : (520 * n <= length t + 519)%nat)
      by (apply Nat.Div0.mul_div_le).
    repeat split.
    + unfold n, window_count.
      apply (Nat.div_le_lower_bound _ 520 1); lia.
    + apply file_chunks_default.
    + lia.
    + apply window_length.
  - intros He. rewrite file_chunks_default. fold t. rewrite He. reflexivity.
Qed.

Lemma default_chunking_witness :
  @normalize basic_latin (lit "  RAG   retrieves documents. ") <> [] /\
  @file_chunks basic_latin (LocalCorpus_init (lit "data"))
    (lit "a.txt", lit "  RAG   retrieves documents. ")
  = [mkChunk (lit "a.txt") 0 (lit "RAG retrieves documents.")].
Proof.
  assert (Hne : @normalize basic_latin (lit "  RAG   retrieves documents. ") <> [])
    by (vm_compute; discriminate).
  split; [exact Hne |].
  destruct (default_chunking basic_latin (lit "data") (lit "a.txt")
              (lit "  RAG   retrieves documents. ")) as [Hsome _].
  destruct (Hsome Hne) as (_ & Heq & _).
  rewrite Heq. vm_compute. reflexivity.
Defined.

(** C5, as stated, fails: a normalized text of 1100 characters is cut at
    offsets 0, 520 and 1040 into chunks of 600, 580 and 60 characters,
    so the chunk before the last one is short as well. *)
Lemma penultimate_chunk_short : ~ only_final_chunk_short basic_latin.
Proof.
  intros H. specialize (H (repeat 97%N 1100) 1%nat).
  vm_compute in H.
  assert (Habs : 580%nat = 600%nat) by (apply H; repeat constructor).
  discriminate Habs.
Qed.

(** ** Sorting *)

Section SortFacts.
Context {A : Type} (before : A -> A -> bool).

Lemma insert_by_perm (x : A) (l : list A) :
  Permutation (insert_by before x l) (x :: l).
Proof.
  induction l as [| y l IH]; cbn; [reflexivity |].
  destruct (before x y); [reflexivity |].
  rewrite IH. apply perm_swap.
Qed.

Lemma sort_by_perm (l : list A) : Permutation (sort_by before l) l.
Proof.
  induction l as [| x l IH]; cbn; [reflexivity |].
  rewrite insert_by_perm. now constructor.
Qed.

Variable R : A -> A -> Prop.
Hypothesis R_trans : forall x y z, R x y -> R y z -> R x z.

Lemma insert_by_sorted (x : A) (l : list A) :
  StronglySorted R l -> Forall (decides before R x) l ->
  StronglySorted R (insert_by before x l).
Proof.
  induction l as [| y l IH]; intros Hs Hd; cbn.
  - repeat constructor.
  - inversion Hs as [| ? ? Hs' Hy]; subst.
    inversion Hd as [| ? ? [Ht Hf] Hd']; subst.
    destruct (before x y) eqn:E.
    + constructor; [assumption |].
      constructor; [auto |].
      eapply Forall_impl; [| exact Hy]. intros z Hz. eauto.
    + constructor; [auto |].
      eapply Permutation_Forall;
        [symmetry; apply insert_by_perm |].
      constructor; auto.
Qed.

Lemma sort_by_sorted (l : list A) :
  ForallOrdPairs (decides before R) l -> StronglySorted R (sort_by before l).
Proof.
  induction 1 as [| x l Hx Hl IH]; cbn; [constructor |].
  apply insert_by_sorted; [assumption |].
  eapply Permutation_Forall; [symmetry; apply sort_by_perm | exact Hx].
Qed.
End SortFacts.

Lemma firstn_incl {A} (l : list A) (n : nat) (x : A) :
  In x (firstn n l) -> In x l.
Proof.
  intros H. rewrite <- (firstn_skipn n l). apply in_or_app. now left.
Qed.

Lemma StronglySorted_firstn {A} (R : A -> A -> Prop) (l : list A) (n : nat) :
  StronglySorted R l -> StronglySorted R (firstn n l).
Proof.
  intros Hs. revert n.
  induction Hs as [| x l Hs IH Hx]; intros [| n]; cbn; try constructor.
  - apply IH.
  - apply Forall_forall. intros y Hy.
    rewrite Forall_forall in Hx. apply Hx. eapply firstn_incl, Hy.
Qed.

Lemma StronglySorted_map {A B} (f : A -> B) (R : B -> B -> Prop) (l : list A) :
  StronglySorted (fun x y => R (f x) (f y)) l -> StronglySorted R (map f l).
Proof.
  induction 1 as [| x l Hs IH Hx]; cbn; constructor; [assumption |].
  apply Forall_map. exact Hx.
Qed.

Lemma StronglySorted_weaken {A} (R R' : A -> A -> Prop) (l : list A) :
  (forall x y, R x y -> R' x y) -> StronglySorted R l -> StronglySorted R' l.
Proof.
  intros Himp. induction 1 as [| x l Hs IH Hx]; constructor; [assumption |].
  eapply Forall_impl; [| exact Hx]. auto.
Qed.

Lemma StronglySorted_nth_error {A} (R : A -> A -> Prop) (l : list A) :
  StronglySorted R l ->
  forall p p' x y, (p < p')%nat ->
    nth_error l p = Some x -> nth_error l p' = Some y -> R x y.
Proof.
  induction 1 as [| a l Hs IH Ha]; intros p p' x y Hlt Hp Hp'.
  - destruct p; discriminate.
  - destruct p' as [| p']; [lia |]. cbn in Hp'.
    destruct p as [| p]; cbn in Hp.
    + injection Hp as <-. rewrite Forall_forall in Ha.
      apply Ha. eapply nth_error_In, Hp'.
    + apply (IH p p'); [lia | assumption | assumption].
Qed.

Lemma seq_ordered (s n : nat) : ForallOrdPairs lt (seq s n).
Proof.
  revert s. induction n as [| n IH]; intros s; cbn; constructor.
  - apply Forall_forall. intros y Hy. apply in_seq in Hy. lia.
  - apply IH.
Qed.

Lemma ForallOrdPairs_weaken {A} (R R' : A -> A -> Prop) (l : list A) :
  (forall x y, R x y -> R' x y) -> ForallOrdPairs R l -> ForallOrdPairs R' l.
Proof.
  intros Himp. induction 1 as [| x l Hx Hl IH]; constructor; [| assumption].
  eapply Forall_impl; [| exact Hx]. auto.
Qed.

Lemma Qle_bool_false (x y : Q) : Qle_bool x y = false -> y < x.
Proof.
  intros H. apply Qnot_le_lt. intros Hle.
  apply Qle_bool_iff in Hle. congruence.
Qed.

(** ** The stable sort meets NumPy's contract *)

Lemma stable_argsort_spec : ArgSortSpec stable_argsort.
Proof.
  constructor; intros a; cbn; unfold argsort_with.
  - apply sort_by_perm.
  - apply sort_by_sorted.
    + intros x y z. apply Qle_trans.
    + eapply ForallOrdPairs_weaken; [| apply (seq_ordered 0)].
      intros i j _. split; intros H.
      * now apply Qle_bool_iff.
      * apply Qlt_le_weak. now apply Qle_bool_false.
Qed.

Lemma tie_order_trans (a : list Q) (i j k : nat) :
  tie_order a i j -> tie_order a j k -> tie_order a i k.
Proof.
  unfold tie_order. intros [H1 | [H1 L1]] [H2 | [H2 L2]].
  - left. lra.
  - left. lra.
  - left. lra.
  - right. split; [lra | lia].
Qed.

Lemma stable_argsort_stable : ArgSortStable stable_argsort.
Proof.
  constructor; intros a; cbn; unfold argsort_with.
  apply sort_by_sorted.
  - apply tie_order_trans.
  - eapply ForallOrdPairs_weaken; [| apply (seq_ordered 0)].
    intros i j Hij. unfold tie_order. split; intros H.
    + apply Qle_bool_iff in H.
      destruct (Qlt_le_dec (key_at a i) (key_at a j)) as [Hlt | Hge].
      * now left.
      * right. split; [lra | assumption].
    + left. now apply Qle_bool_false.
Qed.

(** ** TfidfIndex *)

Lemma slice_from_start {A} (l : list A) (k : Z) :
  slice l 0 k = firstn (Z.to_nat (adjust_index (Z.of_nat (length l)) k)) l.
Proof.
  assert (H0 : adjust_index (Z.of_nat (length l)) 0 = 0%Z).
  { unfold adjust_index. destruct (Z.ltb_spec 0 0); lia. }
  unfold slice. cbv zeta. rewrite H0, Z.sub_0_r. reflexivity.
Qed.

Lemma key_at_opp (a : list Q) (i : nat) :
  key_at (map Qopp a) i = - key_at a i.
Proof.
  unfold key_at. change 0 with (- 0) at 1. apply map_nth.
Qed.

Section IndexFacts.
Context {T : Tfidf} {AS : ArgSort}.

Lemma build_ok_inv (s0 s : TfidfIndex) (cs : list Chunk) :
  TfidfIndex_build s0 cs = (s, Return tt) ->
  exists m,
    fit (map text cs) = Some m /\
    s = mkTfidfIndex (Some (Fitted m))
                     (Some (map (transform m) (map text cs))) cs.
Proof.
  unfold TfidfIndex_build. destruct (fit (map text cs)) as [m |].
  - intros H. injection H as <-. now exists m.
  - discriminate.
Qed.

Lemma similarities_length (m : model) (cs : list Chunk) (q : str) :
  length (similarities m (map (transform m) (map text cs)) q) = length cs.
Proof. unfold similarities. now rewrite !length_map. Qed.

Lemma hits_at_in_range (cs : list Chunk) (sims : list Q) (idxs : list nat) :
  length sims = length cs ->
  Forall (fun i => (i < length cs)%nat) idxs ->
  hits_at cs sims idxs
  = Return (map (fun i => (nth i cs no_chunk, key_at sims i)) idxs).
Proof.
  intros Hlen. induction 1 as [| i idxs Hi Hall IH]; cbn; [reflexivity |].
  rewrite (nth_error_nth' cs no_chunk Hi).
  rewrite (nth_error_nth' sims 0) by lia.
  now rewrite IH.
Qed.

Lemma never_built_matrix (s : TfidfIndex) :
  never_built s -> matrix s = None.
Proof.
  induction 1 as [| s s' cs e Hs IH Hb]; [reflexivity |].
  unfold TfidfIndex_build in Hb.
  destruct (fit (map text cs)); [discriminate |].
  injection Hb as <- _. exact IH.
Qed.

Lemma search_never_built (s : TfidfIndex) (q : str) (k : Z) :
  never_built s ->
  search s q k = Raise (AssertionError "Index not built").
Proof.
  intros Hs. apply never_built_matrix in Hs.
  unfold search. rewrite Hs. now destruct (vectorizer s).
Qed.

Context {Hspec : ArgSortSpec AS}.

Lemma argsort_length (a : list Q) : length (argsort a) = length a.
Proof.
  rewrite (Permutation_length (argsort_perm a)). apply length_seq.
Qed.

Lemma argsort_in_range (a : list Q) :
  Forall (fun i => (i < length a)%nat) (argsort a).
Proof.
  apply Forall_forall. intros i Hi.
  apply (Permutation_in _ (argsort_perm a)) in Hi.
  apply in_seq in Hi. lia.
Qed.

Lemma ranked_in_range (sims : list Q) (k : Z) :
  Forall (fun i => (i < length sims)%nat) (ranked sims k).
Proof.
  unfold ranked. rewrite slice_from_start.
  apply Forall_forall. intros i Hi. apply firstn_incl in Hi.
  pose proof (argsort_in_range (map Qopp sims)) as Hall.
  rewrite Forall_forall in Hall. specialize (Hall i Hi).
  now rewrite length_map in Hall.
Qed.

(** What [search] returns on an index left by a successful [build]. *)
Lemma search_fitted (m : model) (cs : list Chunk) (q : str) (k : Z) :
  let mat := map (transform m) (map text cs) in
  let sims := similarities m mat q in
  search (mkTfidfIndex (Some (Fitted m)) (Some mat) cs) q k
  = Return (map (fun i => (nth i cs no_chunk, key_at sims i)) (ranked sims k)).
Proof.
  intros mat sims. unfold search. cbn. fold mat. fold sims.
  assert (Hlen : length sims = length cs) by apply similarities_length.
  apply hits_at_in_range; [exact Hlen |].
  rewrite <- Hlen. apply ranked_in_range.
Qed.
End IndexFacts.

(** C1.  On the index left by a successful [build] over a non-empty
    chunk list, [search] with [k > 0] returns [min k (number of chunks)]
    hits, each a chunk of the index with its similarity, the
    similarities in non-increasing order. *)
Theorem search_count_and_order (T : Tfidf) (AS : ArgSort)
        (Hspec : ArgSortSpec AS)
        (s0 s : TfidfIndex) (cs : list Chunk) (q : str) (k : Z) :
  TfidfIndex_build s0 cs = (s, Return tt) ->
  cs <> [] ->
  (0 < k)%Z ->
  exists hits : list Hit,
    search s q k = Return hits /\
    length hits = Nat.min (Z.to_nat k) (length cs) /\
    Forall (fun h => In (fst h) cs) hits /\
    StronglySorted (fun h1 h2 : Hit => snd h2 <= snd h1) hits.
Proof.
  intros Hb _ Hk. destruct (build_ok_inv _ _ _ Hb) as (m & _ & ->).
  rewrite search_fitted.
  set (sims := similarities m (map (transform m) (map text cs)) q).
  assert (Hlen : length sims = length cs) by apply similarities_length.
  eexists. split; [reflexivity |]. repeat split.
  - rewrite length_map. unfold ranked. rewrite slice_prefix by lia.
    now rewrite length_firstn, argsort_length, length_map, Hlen.
  - apply Forall_map. cbn [fst].
    eapply Forall_impl; [| apply ranked_in_range].
    intros i Hi. cbn beta in Hi. apply nth_In. lia.
  - apply StronglySorted_map. cbn [snd].
    unfold ranked. rewrite slice_from_start.
    apply StronglySorted_firstn.
    eapply StronglySorted_weaken; [| apply argsort_sorted].
    intros i j Hij. cbn beta in Hij. rewrite !key_at_opp in Hij. lra.
Qed.

Lemma sample_index_built :
  @TfidfIndex_build latin_counts TfidfIndex_init sample_chunks
  = (sample_index, Return tt).
Proof. vm_compute. reflexivity. Qed.

Lemma search_count_and_order_witness :
  sample_chunks <> [] /\
  exists hits : list Hit,
    @search latin_counts stable_argsort sample_index (lit "What does RAG do?") 3
    = Return hits /\
    length hits = 2%nat /\
    Forall (fun h => In (fst h) sample_chunks) hits /\
    StronglySorted (fun h1 h2 : Hit => snd h2 <= snd h1) hits.
Proof.
  split; [discriminate |].
  apply (search_count_and_order latin_counts stable_argsort stable_argsort_spec
           TfidfIndex_init sample_index sample_chunks
           (lit "What does RAG do?") 3%Z).
  - exact sample_index_built.
  - discriminate.
  - lia.
Defined.

(** C2, as amended.  [search] is a function of the index, the query and
    [k], and it ranks chunks of equal similarity in the order the sort
    behind [np.argsort] leaves them: whenever that sort is stable, they
    come in their original chunk order. *)
Theorem stable_sort_keeps_ties (T : Tfidf) (AS : ArgSort)
        (Hspec : ArgSortSpec AS) (Hstable : ArgSortStable AS) :
  ties_in_chunk_order T AS.
Proof.
  intros s0 s cs q k hits Hb Hnd Hs p p' i j h h' Hlt Hp Hp' Heq Hi Hj.
  destruct (build_ok_inv _ _ _ Hb) as (m & _ & ->).
  rewrite search_fitted in Hs. injection Hs as <-.
  set (sims := similarities m (map (transform m) (map text cs)) q) in *.
  assert (Hlen : length sims = length cs) by apply similarities_length.
  rewrite nth_error_map in Hp, Hp'.
  destruct (nth_error (ranked sims k) p) as [i0 |] eqn:Ei0; [| discriminate].
  destruct (nth_error (ranked sims k) p') as [j0 |] eqn:Ej0; [| discriminate].
  cbn in Hp, Hp'. injection Hp as <-. injection Hp' as <-.
  cbn [fst snd] in *.
  pose proof (ranked_in_range sims k) as Hin. rewrite Forall_forall in Hin.
  assert (Hi0 : (i0 < length cs)%nat)
    by (rewrite <- Hlen; eapply Hin, nth_error_In, Ei0).
  assert (Hj0 : (j0 < length cs)%nat)
    by (rewrite <- Hlen; eapply Hin, nth_error_In, Ej0).
  rewrite NoDup_nth_error in Hnd.
  assert (i0 = i) as <-.
  { apply Hnd; [exact Hi0 |].
    now rewrite Hi, (nth_error_nth' cs no_chunk Hi0). }
  assert (j0 = j) as <-.
  { apply Hnd; [exact Hj0 |].
    now rewrite Hj, (nth_error_nth' cs no_chunk Hj0). }
  assert (Hord : tie_order (map Qopp sims) i0 j0).
  { eapply (StronglySorted_nth_error (tie_order (map Qopp sims))
              (ranked sims k)); [| exact Hlt | exact Ei0 | exact Ej0].
    unfold ranked. rewrite slice_from_start.
    apply StronglySorted_firstn, argsort_stable. }
  unfold tie_order in Hord. rewrite !key_at_opp in Hord.
  destruct Hord as [Hlt' | [_ Hij]]; [lra | exact Hij].
Qed.

Lemma stable_sort_keeps_ties_witness :
  ArgSortSpec stable_argsort /\
  ArgSortStable stable_argsort /\
  ties_in_chunk_order latin_counts stable_argsort /\
  @search latin_counts stable_argsort sample_index (lit "gamma") 2
  = Return [(chunk_a, 0); (chunk_b, 0)].
Proof.
  split; [exact stable_argsort_spec |].
  split; [exact stable_argsort_stable |].
  split.
  - exact (stable_sort_keeps_ties latin_counts stable_argsort
             stable_argsort_spec stable_argsort_stable).
  - vm_compute. reflexivity.
Defined.

(** Seventeen equal keys are within the insertion sort and stay in
    place; with eighteen the first partition swaps the positions 1..7
    with 15..9 around the pivot. *)
Lemma aquicksort_small_ties : aquicksort (repeat 0 17) = Some (seq 0 17).
Proof. vm_compute. reflexivity. Qed.

Lemma aquicksort_eighteen_ties :
  aquicksort (repeat 0 18)
  = Some [0; 15; 14; 13; 12; 11; 10; 9; 8; 7; 6; 5; 4; 3; 2; 1; 16; 17]%nat.
Proof. vm_compute. reflexivity. Qed.

Lemma tie_index_built :
  @TfidfIndex_build latin_counts TfidfIndex_init tie_chunks
  = (tie_index, Return tt).
Proof. vm_compute. reflexivity. Qed.

Lemma tie_chunks_distinct : NoDup tie_chunks.
Proof.
  apply (NoDup_map_inv text). vm_compute.
  repeat constructor; cbn; intuition discriminate.
Qed.

(** C2, as stated, fails with the sort the code calls.  Over eighteen
    chunks the query "gamma" shares no word with any of them, so all
    eighteen similarities are 0; [np.argsort(-sims)] with its default
    [kind] returns the positions 0, 15, 14, 13, ... and [search] with
    the default [k = 4] ranks chunk 15 before chunk 14. *)
Lemma default_sort_swaps_ties :
  ~ ties_in_chunk_order latin_counts numpy_argsort.
Proof.
  intros H.
  assert (Hs : @search latin_counts numpy_argsort tie_index (lit "gamma") 4
               = Return (map (fun i => (nth i tie_chunks no_chunk, 0))
                             [0; 15; 14; 13]%nat))
    by (vm_compute; reflexivity).
  specialize (H TfidfIndex_init tie_index tie_chunks (lit "gamma") 4%Z _
                tie_index_built tie_chunks_distinct Hs
                1%nat 2%nat 15%nat 14%nat
                (nth 15 tie_chunks no_chunk, 0) (nth 14 tie_chunks no_chunk, 0)).
  assert (Habs : (15 < 14)%nat).
  { apply H; try reflexivity. lia. }
  lia.
Qed.

(** C4, as amended.  [search] raises the "Index not built" assertion on
    every index on which no [build] has succeeded; on a built index
    [k = 0] is accepted and gives the empty list of hits. *)
Theorem search_not_built_or_zero_k (T : Tfidf) (AS : ArgSort) :
  (forall (s : TfidfIndex) (q : str) (k : Z),
      never_built s ->
      search s q k = Raise (AssertionError "Index not built")) /\
  (forall (s0 s : TfidfIndex) (cs : list Chunk) (q : str),
      TfidfIndex_build s0 cs = (s, Return tt) ->
      search s q 0 = Return []).
Proof.
  split.
  - intros s q k. apply search_never_built.
  - intros s0 s cs q Hb. destruct (build_ok_inv _ _ _ Hb) as (m & _ & ->).
    unfold search, ranked. cbn.
    rewrite slice_prefix by lia. reflexivity.
Qed.

Lemma search_not_built_or_zero_k_witness :
  @search latin_counts stable_argsort TfidfIndex_init (lit "What does RAG do?") 3
  = Raise (AssertionError "Index not built") /\
  @search latin_counts stable_argsort sample_index (lit "What does RAG do?") 0
  = Return [].
Proof.
  destruct (search_not_built_or_zero_k latin_counts stable_argsort)
    as [Hfresh Hzero].
  split.
  - apply Hfresh. constructor.
  - apply (Hzero TfidfIndex_init sample_index sample_chunks).
    exact sample_index_built.
Defined.

(** C4, as stated, fails for [k = 0]: on the index built over the two
    sample chunks the call returns normally, with no hit. *)
Lemma zero_k_returns_normally :
  ~ search_refuses_zero_k latin_counts stable_argsort.
Proof.
  intros H.
  specialize (H TfidfIndex_init sample_index sample_chunks
                (lit "What does RAG do?") sample_index_built).
  vm_compute in H. discriminate H.
Qed.

(** C7.  A second [build] over the same chunks leaves the index exactly
    as the first one left it, with the same outcome, so every [search]
    gives the same result after either. *)
Theorem build_twice_same_index (T : Tfidf) (AS : ArgSort)
        (s : TfidfIndex) (cs : list Chunk) :
  let once := TfidfIndex_build s cs in
  let twice := TfidfIndex_build (fst once) cs in
  twice = once /\
  forall (q : str) (k : Z), search (fst twice) q k = search (fst once) q k.
Proof.
  assert (H : TfidfIndex_build (fst (TfidfIndex_build s cs)) cs
              = TfidfIndex_build s cs).
  { unfold TfidfIndex_build. now destruct (fit (map text cs)). }
  cbv zeta. split; [exact H |]. intros q k. now rewrite H.
Qed.

(** ** RAGPipeline and OpenAIAnswerer *)

Section PipelineFacts.
Context {U : Unicode} {T : Tfidf} {AS : ArgSort} {C : ChatService}.

Lemma load_no_files (fs : FileSystem) (c : LocalCorpus) :
  glob_txt fs (data_dir c) = [] -> load fs c = [].
Proof. unfold load. now intros ->. Qed.

Lemma build_empty (fs : FileSystem) (p : RAGPipeline) :
  load fs (corpus p) = [] ->
  RAGPipeline_build fs p = (p, Raise NO_TXT_FILES).
Proof. unfold RAGPipeline_build. now intros ->. Qed.

Lemma build_nonempty (fs : FileSystem) (p : RAGPipeline) :
  load fs (corpus p) <> [] ->
  snd (RAGPipeline_build fs p)
  = snd (TfidfIndex_build (index p) (load fs (corpus p))).
Proof.
  unfold RAGPipeline_build. intros Hne.
  destruct (load fs (corpus p)) as [| c cs]; [congruence |].
  now destruct (TfidfIndex_build (index p) (c :: cs)).
Qed.

Lemma index_build_outcome (s : TfidfIndex) (cs : list Chunk) :
  snd (TfidfIndex_build s cs) = Return tt \/
  snd (TfidfIndex_build s cs) = Raise ValueError.
Proof.
  unfold TfidfIndex_build. destruct (fit (map text cs)); cbn; auto.
Qed.
End PipelineFacts.

(** C3, as amended.  On a directory without eligible text files [load]
    returns the empty chunk list; the failure comes from
    [RAGPipeline.build], which raises [RuntimeError] "No .txt files
    found in data directory." and leaves the pipeline as it was. *)
Theorem load_without_files (U : Unicode) (T : Tfidf)
        (fs : FileSystem) (p : RAGPipeline) :
  glob_txt fs (data_dir (corpus p)) = [] ->
  load fs (corpus p) = [] /\
  RAGPipeline_build fs p = (p, Raise NO_TXT_FILES).
Proof.
  intros H. apply load_no_files in H. split; [exact H |].
  now apply build_empty.
Qed.

Lemma load_without_files_witness :
  let p := @mkRAGPipeline latin_counts (LocalCorpus_init (lit "data"))
             TfidfIndex_init (Offline OfflineAnswerer_init) in
  glob_txt no_txt_fs (lit "data") = [] /\
  @load basic_latin no_txt_fs (LocalCorpus_init (lit "data")) = [] /\
  @RAGPipeline_build basic_latin latin_counts no_txt_fs p
  = (p, Raise NO_TXT_FILES).
Proof.
  intros p. split; [reflexivity |].
  apply (load_without_files basic_latin latin_counts no_txt_fs p).
  reflexivity.
Defined.

(** C3, as stated, fails: on a directory that holds only [notes.md],
    [load] returns normally. *)
Lemma load_returns_without_files : ~ load_raises_without_files basic_latin.
Proof.
  intros H.
  destruct (H no_txt_fs (LocalCorpus_init (lit "data")) eq_refl) as [e He].
  discriminate He.
Qed.

(** C8.  [RAGPipeline.build] raises [RuntimeError] "No .txt files found
    in data directory." exactly when [load] produced no chunk.  It then
    returns before [TfidfIndex.build] is reached, so the pipeline and
    its index are unchanged: on an index never built before, and so on
    every freshly constructed pipeline, [query] stops in [search] with
    the "Index not built" assertion. *)
Theorem build_empty_corpus (U : Unicode) (T : Tfidf) (AS : ArgSort)
        (C : ChatService) (fs : FileSystem) (p : RAGPipeline) :
  (snd (RAGPipeline_build fs p) = Raise NO_TXT_FILES
   <-> load fs (corpus p) = []) /\
  (load fs (corpus p) = [] ->
   fst (RAGPipeline_build fs p) = p /\
   (never_built (index p) ->
    forall (q : str) (k : Z),
      RAGPipeline_query (fst (RAGPipeline_build fs p)) q k
      = Raise (AssertionError "Index not built"))) /\
  (forall (env : Environ) (dir mdl : str) (use_openai : bool),
      RAGPipeline_init env dir use_openai mdl = Return p ->
      never_built (index p)).
Proof.
  repeat split.
  - intros Hr.
    destruct (load fs (corpus p)) as [| c cs] eqn:El; [reflexivity |].
    rewrite build_nonempty in Hr by (rewrite El; discriminate).
    destruct (index_build_outcome (index p) (load fs (corpus p))) as [H | H];
      rewrite H in Hr; discriminate Hr.
  - intros He. now rewrite build_empty.
  - now rewrite build_empty.
  - intros Hnb q k. rewrite build_empty by assumption. cbn [fst].
    unfold RAGPipeline_query. now rewrite search_never_built.
  - intros env dir mdl use_openai Hinit.
    unfold RAGPipeline_init in Hinit.
    destruct use_openai; cbn in Hinit.
    + destruct (OpenAIAnswerer_init env mdl); cbn in Hinit;
        [injection Hinit as <- | discriminate].
      constructor.
    + injection Hinit as <-. constructor.
Qed.

Lemma build_empty_corpus_witness :
  let p := @mkRAGPipeline latin_counts (LocalCorpus_init (lit "data"))
             TfidfIndex_init (Offline OfflineAnswerer_init) in
  @load basic_latin no_txt_fs (corpus p) = [] /\
  never_built (index p) /\
  @RAGPipeline_build basic_latin latin_counts no_txt_fs p
  = (p, Raise NO_TXT_FILES) /\
  @RAGPipeline_query basic_latin latin_counts stable_argsort no_network
    (fst (@RAGPipeline_build basic_latin latin_counts no_txt_fs p))
    (lit "What does RAG do?") 3
  = Raise (AssertionError "Index not built").
Proof.
  intros p.
  assert (Hload : @load basic_latin no_txt_fs (corpus p) = [])
    by reflexivity.
  assert (Hnb : never_built (index p)) by constructor.
  destruct (build_empty_corpus basic_latin latin_counts stable_argsort
              no_network no_txt_fs p) as (Hiff & Hempty & _).
  destruct (Hempty Hload) as [Hsame Hquery].
  split; [exact Hload |]. split; [exact Hnb |]. split.
  - apply Hiff in Hload. revert Hsame Hload.
    destruct (RAGPipeline_build no_txt_fs p) as [p' r]. cbn [fst snd].
    now intros -> ->.
  - now apply Hquery.
Defined.

(** C9, as amended.  [OpenAIAnswerer.__init__] raises [RuntimeError]
    "OPENAI_API_KEY not set..." when the variable is absent from the
    environment or set to the empty string, and so does the pipeline
    constructor that selects this answerer: no pipeline exists to be
    queried.  With a non-empty value the construction succeeds and
    keeps the key. *)
Theorem openai_key_checked_at_construction (T : Tfidf) (env : Environ)
        (dir mdl : str) :
  (getenv env (lit "OPENAI_API_KEY") = None \/
   getenv env (lit "OPENAI_API_KEY") = Some [] ->
   OpenAIAnswerer_init env mdl = Raise KEY_NOT_SET /\
   @RAGPipeline_init T env dir true mdl = Raise KEY_NOT_SET) /\
  (forall key : str,
      key <> [] ->
      getenv env (lit "OPENAI_API_KEY") = Some key ->
      OpenAIAnswerer_init env mdl = Return (mkOpenAIAnswerer mdl key) /\
      @RAGPipeline_init T env dir true mdl
      = Return (mkRAGPipeline (LocalCorpus_init dir) TfidfIndex_init
                              (OpenAI (mkOpenAIAnswerer mdl key)))).
Proof.
  split.
  - intros Habsent.
    assert (H : OpenAIAnswerer_init env mdl = Raise KEY_NOT_SET).
    { unfold OpenAIAnswerer_init. now destruct Habsent as [-> | ->]. }
    split; [exact H |]. unfold RAGPipeline_init. now rewrite H.
  - intros key Hne Hkey.
    assert (H : OpenAIAnswerer_init env mdl = Return (mkOpenAIAnswerer mdl key)).
    { unfold OpenAIAnswerer_init. rewrite Hkey.
      destruct key; [congruence | reflexivity]. }
    split; [exact H |]. unfold RAGPipeline_init. now rewrite H.
Qed.

Lemma openai_key_checked_at_construction_witness :
  (OpenAIAnswerer_init env_without_key (lit "gpt-4o-mini") = Raise KEY_NOT_SET /\
   @RAGPipeline_init latin_counts env_without_key (lit "data") true
     (lit "gpt-4o-mini") = Raise KEY_NOT_SET) /\
  (OpenAIAnswerer_init env_with_key (lit "gpt-4o-mini")
   = Return (mkOpenAIAnswerer (lit "gpt-4o-mini") (lit "sk-test")) /\
   @RAGPipeline_init latin_counts env_with_key (lit "data") true
     (lit "gpt-4o-mini")
   = Return (mkRAGPipeline (LocalCorpus_init (lit "data")) TfidfIndex_init
               (OpenAI (mkOpenAIAnswerer (lit "gpt-4o-mini") (lit "sk-test"))))).
Proof.
  split.
  - apply (openai_key_checked_at_construction latin_counts env_without_key).
    left. reflexivity.
  - apply (openai_key_checked_at_construction latin_counts env_with_key).
    + discriminate.
    + reflexivity.
Defined.

(** C9, as stated, fails for a key that is present but empty:
    [not self.api_key] rejects the empty string as it rejects [None]. *)
Lemma empty_key_is_rejected : ~ key_present_suffices.
Proof.
  intros H.
  destruct (H env_with_empty_key (lit "gpt-4o-mini") [] eq_refl) as [a Ha].
  discriminate Ha.
Qed.

(** ** OfflineAnswerer *)

Section AnswerFacts.
Context {U : Unicode}.

(** [re.split] never returns an empty list. *)
Lemma split_sentences_from_nonempty (s : str) (in_sep : bool) (cur : str) :
  split_sentences_from in_sep cur s <> [].
Proof.
  revert in_sep cur.
  induction s as [| c s IH]; intros in_sep cur; cbn; [discriminate |].
  destruct (isspace c); [| apply IH].
  destruct in_sep; [apply IH |].
  destruct (after_terminator cur); [discriminate | apply IH].
Qed.

(** The context loop only appends to [chosen]. *)
Lemma take_context_extends (maxc : Z) (hits : list Hit) (ctx : str)
      (chosen : list Hit) :
  exists more, snd (take_context maxc hits ctx chosen) = chosen ++ more.
Proof.
  revert ctx chosen.
  induction hits as [| [ch sc] rest IH]; intros ctx chosen; cbn.
  - exists []. now rewrite app_nil_r.
  - destruct (_ >? maxc)%Z.
    + exists []. now rewrite app_nil_r.
    + destruct (IH (ctx ++ match ctx with [] => [] | _ :: _ => [NEWLINE] end
                        ++ strip (text ch))
                   (chosen ++ [(ch, sc)])) as [more Hmore].
      exists ((ch, sc) :: more). rewrite Hmore, <- app_assoc. reflexivity.
Qed.

(** A first chunk that does not fit stops the loop at once. *)
Lemma take_context_overflow (maxc : Z) (ch : Chunk) (sc : Q) (rest : list Hit) :
  (Z.of_nat (length (strip (text ch))) + 1 > maxc)%Z ->
  take_context maxc ((ch, sc) :: rest) [] [] = ([], []).
Proof.
  intros Hover. cbn.
  destruct (_ >? maxc)%Z eqn:E; [reflexivity |].
  rewrite Z.gtb_ltb, Z.ltb_ge in E. lia.
Qed.

(** A first chunk that fits is the first of [chosen]. *)
Lemma take_context_fits (maxc : Z) (ch : Chunk) (sc : Q) (rest : list Hit) :
  (Z.of_nat (length (strip (text ch))) <= maxc - 1)%Z ->
  exists ctx more,
    take_context maxc ((ch, sc) :: rest) [] [] = (ctx, (ch, sc) :: more).
Proof.
  intros Hfit. cbn.
  destruct (_ >? maxc)%Z eqn:E.
  { rewrite Z.gtb_ltb, Z.ltb_lt in E. lia. }
  cbn [app].
  destruct (take_context_extends maxc rest (strip (text ch)) [(ch, sc)])
    as [more Hmore].
  destruct (take_context maxc rest (strip (text ch)) [(ch, sc)])
    as [ctx chosen] eqn:Et.
  cbn in Hmore. subst chosen. now exists ctx, more.
Qed.

Lemma pick_none (terms : list str) (chosen : list Hit) (sentences : list str) :
  (forall sent, In sent sentences -> meets_threshold terms sent = false) ->
  pick terms chosen sentences = [].
Proof.
  unfold pick. induction sentences as [| sent l IH]; intros H; cbn;
    [reflexivity |].
  rewrite (H sent) by now left.
  apply IH. intros x Hx. apply H. now right.
Qed.

(** With an empty [chosen] nothing is picked and the fallback reads
    [chosen[0]]. *)
Lemma answer_overflow (a : OfflineAnswerer) (q : str) (ch : Chunk) (sc : Q)
      (rest : list Hit) :
  (Z.of_nat (length (strip (text ch))) + 1 > max_context_chars a)%Z ->
  OfflineAnswerer_answer a q ((ch, sc) :: rest) = Raise IndexError.
Proof.
  intros Hover. unfold OfflineAnswerer_answer.
  rewrite take_context_overflow by assumption.
  replace (pick (word_set q) [] (split_sentences [])) with (@nil (str * Chunk));
    [reflexivity |].
  unfold pick. induction (split_sentences []) as [| sent l IH];
    [reflexivity |].
  cbn. unfold attribute. cbn. destruct (meets_threshold _ _); exact IH.
Qed.

(** With the first chunk in [chosen] the answer is returned. *)
Lemma answer_fits (a : OfflineAnswerer) (q : str) (ch : Chunk) (sc : Q)
      (rest : list Hit) :
  (Z.of_nat (length (strip (text ch))) <= max_context_chars a - 1)%Z ->
  exists ans, OfflineAnswerer_answer a q ((ch, sc) :: rest) = Return ans.
Proof.
  intros Hfit. unfold OfflineAnswerer_answer.
  destruct (take_context_fits _ ch sc rest Hfit) as (ctx & more & ->).
  destruct (pick (word_set q) ((ch, sc) :: more) (split_sentences ctx))
    as [| pk picked].
  - destruct (split_sentences (strip (text ch))) as [| first l] eqn:E.
    + now apply split_sentences_from_nonempty in E.
    + cbn. eauto.
  - cbn. eauto.
Qed.

(** The fallback of step 6: when no sentence of the context meets the
    threshold and the top chunk fits the budget, the answer is the
    single bullet of the top chunk's first sentence. *)
Lemma answer_fallback (a : OfflineAnswerer) (q : str) (ch : Chunk) (sc : Q)
      (rest : list Hit) :
  let hits := (ch, sc) :: rest in
  (Z.of_nat (length (strip (text ch))) <= max_context_chars a - 1)%Z ->
  (forall sent,
      In sent (split_sentences
                 (fst (take_context (max_context_chars a) hits [] []))) ->
      meets_threshold (word_set q) sent = false) ->
  OfflineAnswerer_answer a q hits
  = Return (render [(hd [] (split_sentences (strip (text ch))), ch)]).
Proof.
  intros hits Hfit Hnone. unfold OfflineAnswerer_answer, hits in *.
  destruct (take_context_fits _ ch sc rest Hfit) as (ctx & more & E).
  rewrite E in *. cbn [fst] in Hnone.
  rewrite pick_none by assumption.
  destruct (split_sentences (strip (text ch))) as [| first l] eqn:Es.
  - now apply split_sentences_from_nonempty in Es.
  - reflexivity.
Qed.
End AnswerFacts.

(** C10.  For a non-empty hits list [answer] returns a string whenever
    the stripped text of the first chunk has at most
    [max_context_chars - 1] characters.  When it has more, the context
    loop stops at once with an empty buffer and an empty [chosen], and
    the fallback step raises [IndexError]. *)
Theorem answer_total_within_budget (U : Unicode) (a : OfflineAnswerer)
        (q : str) (ch : Chunk) (sc : Q) (rest : list Hit) :
  let hits := (ch, sc) :: rest in
  let n := Z.of_nat (length (strip (text ch))) in
  ((n <= max_context_chars a - 1)%Z ->
   exists ans, OfflineAnswerer_answer a q hits = Return ans) /\
  ((n + 1 > max_context_chars a)%Z ->
   take_context (max_context_chars a) hits [] [] = ([], []) /\
   OfflineAnswerer_answer a q hits = Raise IndexError).
Proof.
  cbv zeta. split.
  - apply answer_fits.
  - intros Hover. split.
    + now apply take_context_overflow.
    + now apply answer_overflow.
Qed.

Lemma answer_total_within_budget_witness :
  (exists ans,
      @OfflineAnswerer_answer basic_latin OfflineAnswerer_init
        (lit "What does RAG do?") [(chunk_a, 1); (chunk_b, 0)] = Return ans) /\
  (@take_context basic_latin 2000 [oversized_hit] [] [] = ([], []) /\
   @OfflineAnswerer_answer basic_latin OfflineAnswerer_init
     (lit "What does RAG do?") [oversized_hit] = Raise IndexError).
Proof.
  split.
  - apply (answer_total_within_budget basic_latin OfflineAnswerer_init
             (lit "What does RAG do?") chunk_a 1 [(chunk_b, 0)]).
    vm_compute. discriminate.
  - apply (answer_total_within_budget basic_latin OfflineAnswerer_init
             (lit "What does RAG do?") (fst oversized_hit) 1 []).
    vm_compute. reflexivity.
Defined.

(** C6 at the input where the code departs from it: the only hit holds
    2000 characters, no sentence of the (empty) context meets the
    threshold, and instead of the top chunk's first sentence the call
    ends in [IndexError]. *)
Theorem fallback_fails_on_oversized_top_chunk :
  let q := lit "What does RAG do?" in
  @take_context basic_latin (max_context_chars OfflineAnswerer_init)
    [oversized_hit] [] [] = ([], []) /\
  forallb (fun sent => negb (@meets_threshold basic_latin
                               (@word_set basic_latin q) sent))
          (@split_sentences basic_latin []) = true /\
  @OfflineAnswerer_answer basic_latin OfflineAnswerer_init q [oversized_hit]
  = Raise IndexError.
Proof. cbv zeta. repeat split; vm_compute; reflexivity. Qed.

(* ================================================================= *)
(** * Further properties *)

(** ** LocalCorpus._split_text for any window *)

Lemma stride_pos (c : LocalCorpus) : (1 <= stride c)%nat.
Proof. unfold stride. lia. Qed.

Lemma chunk_count_below (c : LocalCorpus) (n j : nat) :
  (j < chunk_count c n)%nat -> (stride c * j < n)%nat.
Proof.
  unfold chunk_count. intros Hj.
  pose proof (stride_pos c) as Hs.
  pose proof (Nat.Div0.mul_div_le (n + stride c - 1) (stride c)) as Hm.
  nia.
Qed.

Lemma chunk_count_covers (c : LocalCorpus) (n : nat) :
  (n <= stride c * chunk_count c n)%nat.
Proof.
  unfold chunk_count. pose proof (stride_pos c) as Hs.
  pose proof (Nat.div_mod_eq (n + stride c - 1) (stride c)) as Hd.
  pose proof (Nat.mod_upper_bound (n + stride c - 1) (stride c)) as Hm.
  nia.
Qed.

Lemma slice_incl {A} (l : list A) (a b : Z) (x : A) :
  In x (slice l a b) -> In x l.
Proof.
  unfold slice. intros H. apply firstn_incl in H.
  rewrite <- (firstn_skipn (Z.to_nat (adjust_index (Z.of_nat (length l)) a)) l).
  apply in_or_app. now right.
Qed.

Lemma firstn_add {A} (l : list A) (a b : nat) :
  firstn (a + b) l = firstn a l ++ firstn b (skipn a l).
Proof.
  revert l. induction a as [| a IH]; intros [| x l]; cbn;
    rewrite ?firstn_nil; try reflexivity.
  now rewrite IH.
Qed.

Section SplitFacts.
Context {U : Unicode}.

Lemma split_text_as_windows (c : LocalCorpus) (txt : str) :
  (0 <= chunk_size c)%Z ->
  split_text c txt
  = map (window (Z.to_nat (chunk_size c)) (stride c) (normalize txt))
        (seq 0 (chunk_count c (length (normalize txt)))).
Proof.
  intros Hsize. rewrite split_text_windows by assumption. cbv zeta.
  fold (stride c). f_equal. f_equal.
  unfold chunk_count. pose proof (stride_pos c) as Hs.
  set (n := length (normalize txt)).
  replace (Z.max 1 (chunk_size c - chunk_overlap c)) with (Z.of_nat (stride c))
    by (unfold stride; lia).
  replace (Z.of_nat n + Z.of_nat (stride c) - 1)%Z
    with (Z.of_nat (n + stride c - 1)) by lia.
  now rewrite <- Nat2Z.inj_div, Nat2Z.id.
Qed.

Lemma collapse_ws_spaces (in_run : bool) (txt : str) :
  Forall (fun x => isspace x = true -> x = SPACE) (collapse_ws in_run txt).
Proof.
  revert in_run. induction txt as [| x txt IH]; intros in_run; cbn;
    [constructor |].
  destruct (isspace x) eqn:E.
  - destruct in_run; [apply IH |]. constructor; [reflexivity | apply IH].
  - constructor; [congruence | apply IH].
Qed.

Lemma lstrip_incl (txt : str) (x : char) : In x (lstrip txt) -> In x txt.
Proof.
  induction txt as [| y txt IH]; cbn; [tauto |].
  destruct (isspace y); [intros H; right; now apply IH | tauto].
Qed.

Lemma strip_incl (txt : str) (x : char) : In x (strip txt) -> In x txt.
Proof.
  unfold strip, rstrip. intros H.
  apply in_rev, lstrip_incl, in_rev in H. now apply lstrip_incl.
Qed.

Lemma split_text_incl (c : LocalCorpus) (txt ch : str) (x : char) :
  In ch (split_text c txt) -> In x ch -> In x (normalize txt).
Proof.
  unfold split_text. destruct (normalize txt) as [| y t] eqn:E; [easy |].
  intros Hch Hx. apply in_map_iff in Hch. destruct Hch as (i & <- & _).
  now apply slice_incl in Hx.
Qed.
End SplitFacts.

(** X1.  For a window of [chunk_size >= 0] characters, [_split_text]
    cuts the normalized text [t] into [ceil(len(t) / step)] chunks,
    [step = max(1, chunk_size - chunk_overlap)]; the chunk at position
    [j] starts at offset [step * j], inside [t], and holds the next
    [chunk_size] characters or what is left of [t]. *)
Theorem split_text_chunks (U : Unicode) (c : LocalCorpus) (txt : str) :
  (0 <= chunk_size c)%Z ->
  let t := normalize txt in
  let chunks := split_text c txt in
  length chunks = chunk_count c (length t) /\
  forall j, (j < length chunks)%nat ->
    (stride c * j < length t)%nat /\
    nth_error chunks j
    = Some (window (Z.to_nat (chunk_size c)) (stride c) t j).
Proof.
  intros Hsize t chunks.
  assert (Hlen : length chunks = chunk_count c (length t)).
  { unfold chunks. rewrite split_text_as_windows by assumption.
    now rewrite length_map, length_seq. }
  split; [exact Hlen |]. intros j Hj. rewrite Hlen in Hj. split.
  - now apply chunk_count_below.
  - unfold chunks. rewrite split_text_as_windows by assumption.
    rewrite nth_error_map, nth_error_seq.
    destruct (Nat.ltb_spec j (chunk_count c (length (normalize txt))));
      [reflexivity | unfold t in Hj; lia].
Qed.

Lemma split_text_chunks_witness :
  let c := mkLocalCorpus (lit "data") 10 3 in
  let txt := lit "RAG  retrieves documents." in
  (0 <= chunk_size c)%Z /\
  length (@split_text basic_latin c txt) = 4%nat /\
  nth_error (@split_text basic_latin c txt) 3 = Some (lit "ts.").
Proof.
  intros c txt.
  destruct (split_text_chunks basic_latin c txt) as [Hlen Hnth];
    [cbn; lia |].
  split; [cbn; lia |]. split.
  - rewrite Hlen. vm_compute. reflexivity.
  - destruct (Hnth 3%nat) as [_ H]; [rewrite Hlen; vm_compute; lia |].
    rewrite H. vm_compute. reflexivity.
Defined.

(** X2.  With [chunk_size >= 1] no chunk is empty and none is longer
    than [chunk_size]. *)
Theorem chunk_length_bounds (U : Unicode) (c : LocalCorpus) (txt ch : str) :
  (1 <= chunk_size c)%Z ->
  In ch (split_text c txt) ->
  (1 <= length ch <= Z.to_nat (chunk_size c))%nat.
Proof.
  intros Hsize Hin. rewrite split_text_as_windows in Hin by lia.
  apply in_map_iff in Hin. destruct Hin as (j & <- & Hj).
  apply in_seq in Hj.
  assert (Hb : (stride c * j < length (normalize txt))%nat)
    by (apply chunk_count_below; lia).
  rewrite window_length. lia.
Qed.

Lemma chunk_length_bounds_witness :
  let c := mkLocalCorpus (lit "data") 10 3 in
  (1 <= chunk_size c)%Z /\
  In (lit "ts.") (@split_text basic_latin c (lit "RAG  retrieves documents.")) /\
  (1 <= length (lit "ts.") <= 10)%nat.
Proof.
  intros c.
  assert (Hin : In (lit "ts.")
                   (@split_text basic_latin c (lit "RAG  retrieves documents.")))
    by (vm_compute; tauto).
  split; [cbn; lia |]. split; [exact Hin |].
  apply (chunk_length_bounds basic_latin c
           (lit "RAG  retrieves documents.") (lit "ts.")); [cbn; lia | exact Hin].
Defined.

Lemma window_overlap (size step : nat) (t : str) (j : nat) :
  skipn step (window size step t j)
  = firstn (size - step) (window size step t (S j)).
Proof.
  unfold window.
  rewrite skipn_firstn_comm, skipn_skipn, firstn_firstn.
  rewrite Nat.min_l by lia. do 2 f_equal. lia.
Qed.

Lemma windows_concat (step : nat) (t : str) (n : nat) :
  concat (map (fun j => firstn step (skipn (step * j) t)) (seq 0 n))
  = firstn (step * n) t.
Proof.
  induction n as [| n IH].
  - now rewrite Nat.mul_0_r.
  - rewrite seq_S, map_app, concat_app, IH. cbn [map concat Nat.add].
    rewrite app_nil_r.
    replace (step * S n)%nat with (step * n + step)%nat by lia.
    now rewrite firstn_add.
Qed.

(** X3.  With [0 <= chunk_overlap < chunk_size], what a chunk holds
    beyond its first [chunk_size - chunk_overlap] characters is the
    beginning of the next chunk: its first [chunk_overlap] characters. *)
Theorem consecutive_chunks_overlap (U : Unicode) (c : LocalCorpus)
        (txt a b : str) (j : nat) :
  (0 <= chunk_overlap c < chunk_size c)%Z ->
  nth_error (split_text c txt) j = Some a ->
  nth_error (split_text c txt) (S j) = Some b ->
  skipn (Z.to_nat (chunk_size c - chunk_overlap c)) a
  = firstn (Z.to_nat (chunk_overlap c)) b.
Proof.
  intros Hc Ha Hb.
  rewrite split_text_as_windows in Ha, Hb by lia.
  rewrite nth_error_map, nth_error_seq in Ha, Hb.
  destruct (Nat.ltb (S j) _); [| discriminate].
  destruct (Nat.ltb j _); [| discriminate].
  cbn in Ha, Hb. injection Ha as <-. injection Hb as <-.
  assert (Hs : stride c = Z.to_nat (chunk_size c - chunk_overlap c))
    by (unfold stride; lia).
  rewrite <- Hs, window_overlap. f_equal. lia.
Qed.

Lemma consecutive_chunks_overlap_witness :
  let c := mkLocalCorpus (lit "data") 10 3 in
  let txt := lit "RAG  retrieves documents." in
  nth_error (@split_text basic_latin c txt) 0 = Some (lit "RAG retrie") /\
  nth_error (@split_text basic_latin c txt) 1 = Some (lit "rieves doc") /\
  skipn 7 (lit "RAG retrie") = firstn 3 (lit "rieves doc").
Proof.
  intros c txt.
  assert (H0 : nth_error (@split_text basic_latin c txt) 0
               = Some (lit "RAG retrie")) by (vm_compute; reflexivity).
  assert (H1 : nth_error (@split_text basic_latin c txt) 1
               = Some (lit "rieves doc")) by (vm_compute; reflexivity).
  split; [exact H0 |]. split; [exact H1 |].
  apply (consecutive_chunks_overlap basic_latin c txt _ _ 0%nat);
    [cbn; lia | exact H0 | exact H1].
Defined.

(** X4.  With [chunk_size >= 1] and [chunk_overlap >= 0] the chunks
    leave no gap: the first [step] characters of each chunk, put end to
    end, give back the normalized text. *)
Theorem chunks_cover_text (U : Unicode) (c : LocalCorpus) (txt : str) :
  (1 <= chunk_size c)%Z ->
  (0 <= chunk_overlap c)%Z ->
  concat (map (firstn (stride c)) (split_text c txt)) = normalize txt.
Proof.
  intros Hsize Hover. rewrite split_text_as_windows by lia.
  rewrite map_map.
  rewrite (map_ext _ (fun j => firstn (stride c)
                                 (skipn (stride c * j) (normalize txt)))).
  - rewrite windows_concat. apply firstn_all2, chunk_count_covers.
  - intros j. unfold window. rewrite firstn_firstn. f_equal.
    unfold stride. lia.
Qed.

Lemma chunks_cover_text_witness :
  let c := mkLocalCorpus (lit "data") 10 3 in
  concat (map (firstn 7)
              (@split_text basic_latin c (lit "RAG  retrieves documents.")))
  = lit "RAG retrieves documents.".
Proof.
  intros c.
  transitivity (@normalize basic_latin (lit "RAG  retrieves documents.")).
  - apply (chunks_cover_text basic_latin c (lit "RAG  retrieves documents."));
      cbn; lia.
  - vm_compute. reflexivity.
Defined.

(** X5.  The only whitespace a chunk can hold is the space character:
    every run of whitespace of the document was replaced by one space
    before the text was cut. *)
Theorem chunks_whitespace_is_space (U : Unicode) (c : LocalCorpus)
        (txt ch : str) (x : char) :
  In ch (split_text c txt) -> In x ch -> isspace x = true -> x = SPACE.
Proof.
  intros Hch Hx. apply (split_text_incl c txt ch x Hch) in Hx.
  unfold normalize in Hx. apply strip_incl in Hx.
  pose proof (collapse_ws_spaces false txt) as Hall.
  rewrite Forall_forall in Hall. now apply Hall.
Qed.

Lemma chunks_whitespace_is_space_witness :
  let c := LocalCorpus_init (lit "data") in
  let ch := lit "RAG retrieves documents." in
  In ch (@split_text basic_latin c
           [82; 65; 71; 9; 10; 114; 101; 116; 114; 105; 101; 118; 101; 115; 32;
            32; 100; 111; 99; 117; 109; 101; 110; 116; 115; 46; 10]%N) /\
  In 32%N ch /\ 32%N = SPACE.
Proof.
  intros c ch.
  assert (Hin : In ch (@split_text basic_latin c
           [82; 65; 71; 9; 10; 114; 101; 116; 114; 105; 101; 118; 101; 115; 32;
            32; 100; 111; 99; 117; 109; 101; 110; 116; 115; 46; 10]%N))
    by (vm_compute; tauto).
  assert (Hx : In 32%N ch) by (vm_compute; tauto).
  split; [exact Hin |]. split; [exact Hx |].
  now apply (chunks_whitespace_is_space basic_latin c _ ch 32%N Hin Hx).
Defined.

(** ** LocalCorpus.load *)

Lemma enumerate_from_In {A} (l : list A) (s : nat) (i : Z) (x : A) :
  In (i, x) (combine (map Z.of_nat (seq s (length l))) l)
  <-> exists j, i = Z.of_nat (s + j) /\ nth_error l j = Some x.
Proof.
  revert s. induction l as [| y l IH]; intros s; cbn.
  - split; [tauto |]. intros (j & _ & Hj). destruct j; discriminate.
  - rewrite IH. split.
    + intros [Heq | (j & -> & Hj)].
      * injection Heq as <- <-. exists 0%nat. split; [f_equal; lia | reflexivity].
      * exists (S j). split; [f_equal; lia | exact Hj].
    + intros ([| j] & -> & Hj); cbn in Hj.
      * left. injection Hj as <-. f_equal. f_equal. lia.
      * right. exists j. split; [f_equal; lia | exact Hj].
Qed.

Lemma enumerate_In {A} (l : list A) (i : Z) (x : A) :
  In (i, x) (enumerate l)
  <-> (0 <= i)%Z /\ nth_error l (Z.to_nat i) = Some x.
Proof.
  unfold enumerate. rewrite enumerate_from_In. split.
  - intros (j & -> & Hj). cbn. rewrite Nat2Z.id. split; [lia | exact Hj].
  - intros [Hi Hx]. exists (Z.to_nat i). split; [cbn; lia | exact Hx].
Qed.

Lemma enumerate_indices {A} (l : list A) :
  map fst (enumerate l) = map Z.of_nat (seq 0 (length l)).
Proof.
  unfold enumerate. generalize 0%nat.
  induction l as [| y l IH]; intros s; cbn; [reflexivity |].
  now rewrite IH.
Qed.

Lemma glob_txt_In (fs : FileSystem) (dir : str) (f : File) :
  In f (glob_txt fs dir)
  <-> In f (fs dir) /\ endswith (lit ".txt") (fst f) = true.
Proof.
  unfold glob_txt. split; intros H.
  - eapply Permutation_in in H; [| apply sort_by_perm].
    now apply filter_In in H.
  - eapply Permutation_in; [symmetry; apply sort_by_perm |].
    now apply filter_In.
Qed.

Lemma NoDup_map_filter {A B} (f : A -> B) (keep : A -> bool) (l : list A) :
  NoDup (map f l) -> NoDup (map f (filter keep l)).
Proof.
  induction l as [| x l IH]; cbn; intros H; [constructor |].
  inversion H as [| ? ? Hx Hl]; subst.
  destruct (keep x); cbn; [| auto].
  constructor; [| auto].
  intros Hin. apply Hx. apply in_map_iff in Hin.
  destruct Hin as (y & Hy & Hin). apply filter_In in Hin.
  apply in_map_iff. exists y. tauto.
Qed.

Lemma NoDup_map_of_nat (l : list nat) : NoDup l -> NoDup (map Z.of_nat l).
Proof.
  induction 1 as [| x l Hx Hl IH]; cbn; constructor; [| exact IH].
  intros Hin. apply in_map_iff in Hin. destruct Hin as (y & Hy & Hin).
  apply Nat2Z.inj in Hy. now subst.
Qed.

Lemma NoDup_map_pair {A B} (a : A) (l : list B) :
  NoDup l -> NoDup (map (pair a) l).
Proof.
  induction 1 as [| x l Hx Hl IH]; cbn; constructor; [| exact IH].
  intros Hin. apply in_map_iff in Hin. destruct Hin as (y & Hy & Hin).
  injection Hy as ->. contradiction.
Qed.

Lemma StronglySorted_app {A} (R : A -> A -> Prop) (l1 l2 : list A) :
  StronglySorted R l1 -> StronglySorted R l2 ->
  (forall x y, In x l1 -> In y l2 -> R x y) ->
  StronglySorted R (l1 ++ l2).
Proof.
  induction 1 as [| x l1 Hs IH Hx]; intros H2 Hcross; cbn; [assumption |].
  constructor.
  - apply IH; [assumption |]. intros a b Ha Hb. apply Hcross; [now right | exact Hb].
  - apply Forall_app. split; [exact Hx |].
    apply Forall_forall. intros y Hy. apply Hcross; [now left | exact Hy].
Qed.

Lemma StronglySorted_all {A} (R : A -> A -> Prop) (l : list A) :
  (forall x y, In x l -> In y l -> R x y) -> StronglySorted R l.
Proof.
  induction l as [| x l IH]; intros H; constructor.
  - apply IH. intros a b Ha Hb. apply H; now right.
  - apply Forall_forall. intros y Hy. apply H; [now left | now right].
Qed.

Lemma ForallOrdPairs_all {A} (R : A -> A -> Prop) (l : list A) :
  (forall x y, R x y) -> ForallOrdPairs R l.
Proof.
  intros H. induction l as [| x l IH]; constructor; [| exact IH].
  apply Forall_forall. auto.
Qed.

Lemma str_leb_refl (a : str) : str_leb a a = true.
Proof.
  induction a as [| x a IH]; cbn; [reflexivity |].
  now rewrite N.ltb_irrefl.
Qed.

Lemma str_leb_total (a b : str) : str_leb a b = false -> str_leb b a = true.
Proof.
  revert b. induction a as [| x a IH]; intros [| y b]; cbn; try easy.
  destruct (N.ltb_spec x y); [discriminate |].
  destruct (N.ltb_spec y x); [reflexivity |]. apply IH.
Qed.

Lemma str_leb_trans (a b c : str) :
  str_leb a b = true -> str_leb b c = true -> str_leb a c = true.
Proof.
  revert b c. induction a as [| x a IH]; intros [| y b] [| z c]; cbn;
    try easy.
  destruct (N.ltb_spec x y), (N.ltb_spec y z), (N.ltb_spec x z),
    (N.ltb_spec y x), (N.ltb_spec z y), (N.ltb_spec z x);
    try lia; try easy.
  apply IH.
Qed.

Section LoadFacts.
Context {U : Unicode}.

Lemma file_chunks_In (c : LocalCorpus) (f : File) (ch : Chunk) :
  In ch (file_chunks c f)
  <-> doc_id ch = fst f /\ (0 <= chunk_id ch)%Z /\
      nth_error (split_text c (snd f)) (Z.to_nat (chunk_id ch))
      = Some (text ch).
Proof.
  unfold file_chunks. rewrite in_map_iff. split.
  - intros ([i x] & <- & Hin). apply enumerate_In in Hin. cbn. tauto.
  - intros (Hd & Hi & Hx). exists (chunk_id ch, text ch). split.
    + destruct ch as [d i x]. cbn in *. now subst.
    + now apply enumerate_In.
Qed.

Lemma file_chunks_ids (c : LocalCorpus) (f : File) :
  map (fun ch => (doc_id ch, chunk_id ch)) (file_chunks c f)
  = map (pair (fst f))
        (map Z.of_nat (seq 0 (length (split_text c (snd f))))).
Proof.
  unfold file_chunks. rewrite map_map. cbn.
  rewrite <- enumerate_indices, map_map. reflexivity.
Qed.

Lemma chunks_unique_ids (c : LocalCorpus) (files : list File) :
  NoDup (map fst files) ->
  NoDup (map (fun ch => (doc_id ch, chunk_id ch))
             (flat_map (file_chunks c) files)).
Proof.
  induction files as [| f files IH]; cbn; intros H; [constructor |].
  inversion H as [| ? ? Hf Hrest]; subst.
  rewrite map_app. apply NoDup_app.
  - rewrite file_chunks_ids.
    apply NoDup_map_pair, NoDup_map_of_nat, seq_NoDup.
  - now apply IH.
  - intros [d i] H1 H2. apply Hf.
    apply in_map_iff in H1. destruct H1 as (ch1 & E1 & H1).
    apply in_map_iff in H2. destruct H2 as (ch2 & E2 & H2).
    apply file_chunks_In in H1. destruct H1 as (D1 & _).
    apply in_flat_map in H2. destruct H2 as (g & Hg & H2).
    apply file_chunks_In in H2. destruct H2 as (D2 & _).
    injection E1 as E1 _. injection E2 as E2 _.
    apply in_map_iff. exists g. split; [congruence | exact Hg].
Qed.
End LoadFacts.

(** X6.  [load] yields exactly the chunks of the directory's [.txt]
    files: a chunk is in the result if and only if its [doc_id] is the
    name of a file of the directory ending in [.txt] and its text is the
    chunk number [chunk_id] of that file's text.  Other files
    contribute nothing. *)
Theorem load_chunk_origin (U : Unicode) (fs : FileSystem) (c : LocalCorpus)
        (ch : Chunk) :
  In ch (load fs c)
  <-> exists f : File,
        In f (fs (data_dir c)) /\
        endswith (lit ".txt") (fst f) = true /\
        doc_id ch = fst f /\
        (0 <= chunk_id ch)%Z /\
        nth_error (split_text c (snd f)) (Z.to_nat (chunk_id ch))
        = Some (text ch).
Proof.
  unfold load. rewrite in_flat_map. split.
  - intros (f & Hf & Hch). apply glob_txt_In in Hf.
    apply file_chunks_In in Hch. exists f. tauto.
  - intros (f & Hf & He & Hch). exists f. split.
    + now apply glob_txt_In.
    + now apply file_chunks_In.
Qed.

Lemma load_chunk_origin_witness :
  In chunk_a (@load basic_latin sample_fs (LocalCorpus_init (lit "data"))) /\
  ~ In (mkChunk (lit "notes.md") 0 (lit "RAG retrieves documents."))
       (@load basic_latin sample_fs (LocalCorpus_init (lit "data"))).
Proof.
  split.
  - apply (load_chunk_origin basic_latin sample_fs
             (LocalCorpus_init (lit "data")) chunk_a).
    exists (lit "a.txt", text chunk_a).
    repeat split; try (vm_compute; tauto); vm_compute; discriminate.
  - intros H.
    apply (load_chunk_origin basic_latin sample_fs
             (LocalCorpus_init (lit "data"))) in H.
    destruct H as (f & Hf & He & Hd & _). cbn in Hd. subst.
    cbv in Hf.
    destruct Hf as [<- | [<- | [<- | []]]]; vm_compute in He, Hd;
      discriminate.
Defined.

(** X7.  When the file names of the directory are distinct, no two
    chunks of [load] share both [doc_id] and [chunk_id]. *)
Theorem load_unique_ids (U : Unicode) (fs : FileSystem) (c : LocalCorpus) :
  NoDup (map fst (fs (data_dir c))) ->
  NoDup (map (fun ch => (doc_id ch, chunk_id ch)) (load fs c)).
Proof.
  intros H. unfold load. apply chunks_unique_ids.
  unfold glob_txt.
  eapply Permutation_NoDup;
    [apply Permutation_map; symmetry; apply sort_by_perm |].
  now apply NoDup_map_filter.
Qed.

Lemma sample_fs_names_distinct : NoDup (map fst (sample_fs (lit "data"))).
Proof.
  repeat constructor; cbv; intuition discriminate.
Qed.

Lemma load_unique_ids_witness :
  NoDup (map fst (sample_fs (lit "data"))) /\
  NoDup (map (fun ch => (doc_id ch, chunk_id ch))
             (@load basic_latin sample_fs (LocalCorpus_init (lit "data")))).
Proof.
  split; [exact sample_fs_names_distinct |].
  apply (load_unique_ids basic_latin sample_fs (LocalCorpus_init (lit "data"))).
  exact sample_fs_names_distinct.
Defined.

Section OrderFacts.
Context {U : Unicode}.

Lemma glob_txt_sorted (fs : FileSystem) (dir : str) :
  StronglySorted (fun a b : File => str_leb (fst a) (fst b) = true)
                 (glob_txt fs dir).
Proof.
  unfold glob_txt. apply sort_by_sorted.
  - intros x y z. apply str_leb_trans.
  - apply ForallOrdPairs_all. intros x y. split; [tauto |].
    apply str_leb_total.
Qed.

Lemma chunks_sorted (c : LocalCorpus) (files : list File) :
  StronglySorted (fun a b : File => str_leb (fst a) (fst b) = true) files ->
  StronglySorted (fun a b : Chunk => str_leb (doc_id a) (doc_id b) = true)
                 (flat_map (file_chunks c) files).
Proof.
  induction 1 as [| f files Hs IH Hf]; cbn; [constructor |].
  apply StronglySorted_app; [| exact IH |].
  - apply StronglySorted_all. intros x y Hx Hy.
    apply file_chunks_In in Hx, Hy.
    destruct Hx as [-> _], Hy as [-> _]. apply str_leb_refl.
  - intros x y Hx Hy. apply file_chunks_In in Hx. destruct Hx as [-> _].
    apply in_flat_map in Hy. destruct Hy as (g & Hg & Hy).
    apply file_chunks_In in Hy. destruct Hy as [-> _].
    rewrite Forall_forall in Hf. now apply Hf.
Qed.
End OrderFacts.

(** X8.  The chunks of [load] come grouped by file, the files in
    ascending order of their names (code point by code point), whatever
    the order in which the directory lists them. *)
Theorem load_in_name_order (U : Unicode) (fs : FileSystem) (c : LocalCorpus) :
  StronglySorted (fun a b : Chunk => str_leb (doc_id a) (doc_id b) = true)
                 (load fs c).
Proof. unfold load. apply chunks_sorted, glob_txt_sorted. Qed.

Lemma str_leb_antisym (a b : str) :
  str_leb a b = true -> str_leb b a = true -> a = b.
Proof.
  revert b. induction a as [| x a IH]; intros [| y b]; cbn; try easy.
  destruct (N.ltb_spec x y), (N.ltb_spec y x); try lia; try easy.
  intros Hab Hba. f_equal; [lia | now apply IH].
Qed.

Lemma filter_perm {A} (keep : A -> bool) (l l' : list A) :
  Permutation l l' -> Permutation (filter keep l) (filter keep l').
Proof.
  induction 1 as [| x l l' Hp IH | x y l | l1 l2 l3 H1 IH1 H2 IH2]; cbn.
  - constructor.
  - destruct (keep x); [now constructor | exact IH].
  - destruct (keep x), (keep y); try reflexivity. apply perm_swap.
  - now transitivity (filter keep l2).
Qed.

(** Two sorted lists with the same elements and distinct keys are the
    same list. *)
Lemma sorted_perm_unique (l1 l2 : list File) :
  StronglySorted (fun a b : File => str_leb (fst a) (fst b) = true) l1 ->
  StronglySorted (fun a b : File => str_leb (fst a) (fst b) = true) l2 ->
  NoDup (map fst l1) ->
  Permutation l1 l2 ->
  l1 = l2.
Proof.
  intros H1. revert l2.
  induction H1 as [| x l1 Hs1 IH Hx]; intros l2 H2 Hnd Hp.
  - now apply Permutation_nil in Hp.
  - destruct l2 as [| y l2];
      [symmetry in Hp; now apply Permutation_nil in Hp |].
    inversion H2 as [| ? ? Hs2 Hy]; subst.
    inversion Hnd as [| ? ? Hnx Hnd']; subst.
    rewrite Forall_forall in Hx, Hy.
    assert (Hxy : x = y).
    { assert (Hin1 : In x (y :: l2))
        by (eapply Permutation_in; [exact Hp | now left]).
      assert (Hin2 : In y (x :: l1))
        by (eapply Permutation_in; [symmetry; exact Hp | now left]).
      destruct Hin1 as [-> | Hin1]; [reflexivity |].
      destruct Hin2 as [-> | Hin2]; [reflexivity |].
      exfalso. apply Hnx.
      assert (E : fst x = fst y)
        by (apply str_leb_antisym; [now apply Hx | now apply Hy]).
      rewrite E. now apply in_map. }
    subst y. f_equal. apply IH; [assumption | assumption |].
    now apply Permutation_cons_inv in Hp.
Qed.

(** X9.  [load] does not depend on the order in which the directory
    lists its files: two listings of the same files, with distinct
    names, give the same chunk list. *)
Theorem load_listing_order (U : Unicode) (fs fs' : FileSystem)
        (c : LocalCorpus) :
  Permutation (fs (data_dir c)) (fs' (data_dir c)) ->
  NoDup (map fst (fs (data_dir c))) ->
  load fs c = load fs' c.
Proof.
  intros Hp Hnd. unfold load. f_equal.
  apply sorted_perm_unique.
  - apply glob_txt_sorted.
  - apply glob_txt_sorted.
  - unfold glob_txt.
    eapply Permutation_NoDup;
      [apply Permutation_map; symmetry; apply sort_by_perm |].
    now apply NoDup_map_filter.
  - unfold glob_txt.
    rewrite sort_by_perm, sort_by_perm. now apply filter_perm.
Qed.

Lemma load_listing_order_witness :
  Permutation (sample_fs (lit "data")) (sample_fs_relisted (lit "data")) /\
  @load basic_latin sample_fs (LocalCorpus_init (lit "data"))
  = @load basic_latin sample_fs_relisted (LocalCorpus_init (lit "data")).
Proof.
  assert (Hp : Permutation (sample_fs (lit "data"))
                           (sample_fs_relisted (lit "data"))).
  { unfold sample_fs, sample_fs_relisted.
    eapply perm_trans; [apply perm_skip, perm_swap | apply perm_swap]. }
  split; [exact Hp |].
  apply (load_listing_order basic_latin sample_fs sample_fs_relisted
           (LocalCorpus_init (lit "data")) Hp).
  exact sample_fs_names_distinct.
Defined.

(** ** TfidfIndex.build and TfidfIndex.search *)

Lemma nth_seq_all {A} (l : list A) (d : A) :
  map (fun i => nth i l d) (seq 0 (length l)) = l.
Proof.
  induction l as [| x l IH]; cbn; [reflexivity |].
  f_equal. rewrite <- seq_shift, map_map. exact IH.
Qed.

Lemma StronglySorted_app_cross {A} (R : A -> A -> Prop) (l1 l2 : list A) :
  StronglySorted R (l1 ++ l2) ->
  forall x y, In x l1 -> In y l2 -> R x y.
Proof.
  induction l1 as [| a l1 IH]; cbn; intros Hs x y Hx Hy; [easy |].
  inversion Hs as [| ? ? Hs' Ha]; subst.
  destruct Hx as [-> | Hx].
  - rewrite Forall_forall in Ha. apply Ha, in_or_app. now right.
  - now apply IH.
Qed.

Section SearchFacts.
Context {T : Tfidf} {AS : ArgSort}.

Lemma key_at_similarities (m : model) (cs : list Chunk) (q : str) (i : nat) :
  (i < length cs)%nat ->
  key_at (similarities m (map (transform m) (map text cs)) q) i
  = chunk_score m q (nth i cs no_chunk).
Proof.
  intros Hi. unfold key_at, similarities. rewrite !map_map.
  rewrite (nth_indep _ 0 (chunk_score m q no_chunk))
    by now rewrite length_map.
  apply (map_nth (fun c => chunk_score m q c)).
Qed.

Context {Hspec : ArgSortSpec AS}.

(** The hits of a built index: the ranked positions, each with its
    chunk and that chunk's score. *)
Lemma search_scored (m : model) (cs : list Chunk) (q : str) (k : Z) :
  let mat := map (transform m) (map text cs) in
  search (mkTfidfIndex (Some (Fitted m)) (Some mat) cs) q k
  = Return (map (fun i => (nth i cs no_chunk,
                           chunk_score m q (nth i cs no_chunk)))
                (ranked (similarities m mat q) k)).
Proof.
  cbv zeta. rewrite search_fitted. f_equal.
  apply map_ext_in. intros i Hi. f_equal.
  apply key_at_similarities.
  pose proof (ranked_in_range
                (similarities m (map (transform m) (map text cs)) q) k)
    as Hall.
  rewrite Forall_forall in Hall. specialize (Hall i Hi).
  now rewrite similarities_length in Hall.
Qed.

Lemma ranked_length (sims : list Q) (k : Z) :
  length (ranked sims k)
  = Z.to_nat (adjust_index (Z.of_nat (length sims)) k).
Proof.
  unfold ranked. rewrite slice_from_start, length_firstn, argsort_length.
  rewrite length_map. unfold adjust_index.
  destruct (Z.ltb_spec k 0); lia.
Qed.
End SearchFacts.

(** X10.  [build] is not atomic.  When a [build] fails after an earlier
    one succeeded, the index already holds the new chunk list next to
    the matrix of the old one and a vectorizer that was never fitted;
    [search] then raises instead of returning hits. *)
Theorem failed_rebuild_breaks_index (T : Tfidf) (AS : ArgSort)
        (s0 s s' : TfidfIndex) (cs cs' : list Chunk) (e : exn)
        (q : str) (k : Z) :
  TfidfIndex_build s0 cs = (s, Return tt) ->
  TfidfIndex_build s cs' = (s', Raise e) ->
  chunks s' = cs' /\
  matrix s' = matrix s /\
  vectorizer s' = Some Unfitted /\
  search s' q k = Raise NotFittedError.
Proof.
  intros Hb Hb'. destruct (build_ok_inv _ _ _ Hb) as (m & _ & ->).
  unfold TfidfIndex_build in Hb'.
  destruct (fit (map text cs')); [discriminate |].
  injection Hb' as <- _. repeat split.
Qed.

Lemma failed_rebuild_breaks_index_witness :
  let s' := fst (@TfidfIndex_build latin_counts sample_index
                   [mkChunk (lit "c.txt") 0 (lit "...")]) in
  @TfidfIndex_build latin_counts sample_index
    [mkChunk (lit "c.txt") 0 (lit "...")] = (s', Raise ValueError) /\
  @search latin_counts stable_argsort s' (lit "What does RAG do?") 3
  = Raise NotFittedError.
Proof.
  intros s'.
  assert (Hb : @TfidfIndex_build latin_counts sample_index
                 [mkChunk (lit "c.txt") 0 (lit "...")]
               = (s', Raise ValueError)) by (vm_compute; reflexivity).
  split; [exact Hb |].
  apply (failed_rebuild_breaks_index latin_counts stable_argsort
           TfidfIndex_init sample_index s' sample_chunks _ ValueError
           (lit "What does RAG do?") 3%Z sample_index_built Hb).
Defined.

(** X11.  A negative [k] is not refused: [idxs[:k]] drops the last
    [-k] positions, so on a built index of [n] chunks [search] returns
    the [n + k] best hits, none when [n + k <= 0]. *)
Theorem search_negative_k (T : Tfidf) (AS : ArgSort) (Hspec : ArgSortSpec AS)
        (s0 s : TfidfIndex) (cs : list Chunk) (q : str) (k : Z) :
  TfidfIndex_build s0 cs = (s, Return tt) ->
  (k < 0)%Z ->
  exists hits : list Hit,
    search s q k = Return hits /\
    length hits = Z.to_nat (Z.of_nat (length cs) + k).
Proof.
  intros Hb Hk. destruct (build_ok_inv _ _ _ Hb) as (m & _ & ->).
  rewrite search_scored. eexists. split; [reflexivity |].
  rewrite length_map, ranked_length, similarities_length.
  unfold adjust_index. destruct (Z.ltb_spec k 0); lia.
Qed.

Lemma search_negative_k_witness :
  exists hits : list Hit,
    @search latin_counts stable_argsort sample_index
      (lit "What does RAG do?") (-1) = Return hits /\
    length hits = 1%nat.
Proof.
  apply (search_negative_k latin_counts stable_argsort stable_argsort_spec
           TfidfIndex_init sample_index sample_chunks
           (lit "What does RAG do?") (-1)%Z sample_index_built).
  lia.
Defined.

(** X12.  With [k] at least the number of chunks, [search] returns
    every chunk of the index exactly once. *)
Theorem search_large_k_returns_all (T : Tfidf) (AS : ArgSort)
        (Hspec : ArgSortSpec AS)
        (s0 s : TfidfIndex) (cs : list Chunk) (q : str) (k : Z) :
  TfidfIndex_build s0 cs = (s, Return tt) ->
  (Z.of_nat (length cs) <= k)%Z ->
  exists hits : list Hit,
    search s q k = Return hits /\ Permutation (map fst hits) cs.
Proof.
  intros Hb Hk. destruct (build_ok_inv _ _ _ Hb) as (m & _ & ->).
  rewrite search_scored. eexists. split; [reflexivity |].
  rewrite map_map. cbn [fst].
  set (sims := similarities m (map (transform m) (map text cs)) q).
  assert (Hlen : length sims = length cs) by apply similarities_length.
  unfold ranked. rewrite slice_prefix by lia.
  rewrite firstn_all2 by (rewrite argsort_length, length_map; lia).
  transitivity (map (fun i => nth i cs no_chunk) (seq 0 (length cs))).
  - apply Permutation_map.
    rewrite <- Hlen, <- (length_map Qopp sims). apply argsort_perm.
  - now rewrite nth_seq_all.
Qed.

Lemma search_large_k_returns_all_witness :
  exists hits : list Hit,
    @search latin_counts stable_argsort sample_index
      (lit "What does RAG do?") 4 = Return hits /\
    Permutation (map fst hits) sample_chunks.
Proof.
  apply (search_large_k_returns_all latin_counts stable_argsort
           stable_argsort_spec TfidfIndex_init sample_index sample_chunks
           (lit "What does RAG do?") 4%Z sample_index_built).
  cbn. lia.
Defined.

(** X13.  The ranking does not depend on [k]: for [0 <= k <= k'] the
    hits for [k] are the first [k] hits for [k']. *)
Theorem search_top_k_prefix (T : Tfidf) (AS : ArgSort) (Hspec : ArgSortSpec AS)
        (s0 s : TfidfIndex) (cs : list Chunk) (q : str) (k k' : Z)
        (hits hits' : list Hit) :
  TfidfIndex_build s0 cs = (s, Return tt) ->
  (0 <= k <= k')%Z ->
  search s q k = Return hits ->
  search s q k' = Return hits' ->
  hits = firstn (Z.to_nat k) hits'.
Proof.
  intros Hb Hk Hs Hs'. destruct (build_ok_inv _ _ _ Hb) as (m & _ & ->).
  rewrite search_scored in Hs, Hs'.
  injection Hs as <-. injection Hs' as <-.
  unfold ranked. rewrite !slice_prefix by lia.
  rewrite firstn_map, firstn_firstn. do 2 f_equal. lia.
Qed.

Lemma search_top_k_prefix_witness :
  @search latin_counts stable_argsort sample_index
    (lit "What does RAG do?") 1 = Return [(chunk_a, 1)] /\
  @search latin_counts stable_argsort sample_index
    (lit "What does RAG do?") 2 = Return [(chunk_a, 1); (chunk_b, 0)] /\
  [(chunk_a, 1)] = firstn 1 [(chunk_a, 1); (chunk_b, 0)].
Proof.
  assert (H1 : @search latin_counts stable_argsort sample_index
                 (lit "What does RAG do?") 1 = Return [(chunk_a, 1)])
    by (vm_compute; reflexivity).
  assert (H2 : @search latin_counts stable_argsort sample_index
                 (lit "What does RAG do?") 2
               = Return [(chunk_a, 1); (chunk_b, 0)])
    by (vm_compute; reflexivity).
  split; [exact H1 |]. split; [exact H2 |].
  apply (search_top_k_prefix latin_counts stable_argsort stable_argsort_spec
           TfidfIndex_init sample_index sample_chunks
           (lit "What does RAG do?") 1%Z 2%Z _ _
           sample_index_built); [lia | exact H1 | exact H2].
Defined.

(** X14.  Chunk and score of a hit belong together: the score [search]
    returns with a chunk is the cosine between the transformed query
    and the transformed text of that same chunk, under the model fitted
    by [build]. *)
Theorem hit_score_is_chunk_similarity (T : Tfidf) (AS : ArgSort)
        (Hspec : ArgSortSpec AS)
        (s0 s : TfidfIndex) (cs : list Chunk) :
  TfidfIndex_build s0 cs = (s, Return tt) ->
  exists m : model,
    fit (map text cs) = Some m /\
    forall (q : str) (k : Z) (hits : list Hit),
      search s q k = Return hits ->
      Forall (fun h => In (fst h) cs /\ snd h = chunk_score m q (fst h)) hits.
Proof.
  intros Hb. destruct (build_ok_inv _ _ _ Hb) as (m & Hfit & ->).
  exists m. split; [exact Hfit |]. intros q k hits Hs.
  rewrite search_scored in Hs. injection Hs as <-.
  apply Forall_map. cbn [fst snd].
  eapply Forall_impl;
    [| apply (ranked_in_range
                (similarities m (map (transform m) (map text cs)) q) k)].
  intros i Hi. cbn beta in Hi. rewrite similarities_length in Hi.
  split; [now apply nth_In | reflexivity].
Qed.

Lemma hit_score_is_chunk_similarity_witness :
  exists m : @model latin_counts,
    @fit latin_counts (map text sample_chunks) = Some m /\
    forall (q : str) (k : Z) (hits : list Hit),
      @search latin_counts stable_argsort sample_index q k = Return hits ->
      Forall (fun h => In (fst h) sample_chunks /\
                       snd h = @chunk_score latin_counts m q (fst h)) hits.
Proof.
  exact (hit_score_is_chunk_similarity latin_counts stable_argsort
           stable_argsort_spec TfidfIndex_init sample_index sample_chunks
           sample_index_built).
Defined.

(** X15.  [search] keeps the best: the hits are taken at distinct
    positions of the chunk list, and no chunk at a position left out
    scores higher than a chunk that was returned. *)
Theorem search_keeps_best (T : Tfidf) (AS : ArgSort) (Hspec : ArgSortSpec AS)
        (s0 s : TfidfIndex) (cs : list Chunk) (q : str) (k : Z) :
  TfidfIndex_build s0 cs = (s, Return tt) ->
  exists (m : model) (idxs : list nat),
    fit (map text cs) = Some m /\
    search s q k
    = Return (map (fun i => (nth i cs no_chunk,
                             chunk_score m q (nth i cs no_chunk))) idxs) /\
    NoDup idxs /\
    forall i j,
      In i idxs -> (j < length cs)%nat -> ~ In j idxs ->
      chunk_score m q (nth j cs no_chunk)
      <= chunk_score m q (nth i cs no_chunk).
Proof.
  intros Hb. destruct (build_ok_inv _ _ _ Hb) as (m & Hfit & ->).
  set (sims := similarities m (map (transform m) (map text cs)) q).
  assert (Hlen : length sims = length cs) by apply similarities_length.
  exists m, (ranked sims k). split; [exact Hfit |].
  split; [apply search_scored |].
  set (a := argsort (map Qopp sims)).
  set (n := Z.to_nat (adjust_index (Z.of_nat (length a)) k)).
  assert (Hr : ranked sims k = firstn n a)
    by (unfold ranked; apply slice_from_start).
  assert (Hperm : Permutation a (seq 0 (length cs))).
  { unfold a. rewrite <- Hlen, <- (length_map Qopp sims). apply argsort_perm. }
  assert (Hnd : NoDup (firstn n a ++ skipn n a)).
  { rewrite firstn_skipn. eapply Permutation_NoDup;
      [symmetry; exact Hperm | apply seq_NoDup]. }
  rewrite Hr. split; [now apply NoDup_app_remove_r in Hnd |].
  intros i j Hi Hj Hnj.
  assert (Hja : In j (firstn n a ++ skipn n a)).
  { rewrite firstn_skipn. eapply Permutation_in;
      [symmetry; exact Hperm | apply in_seq; lia]. }
  apply in_app_or in Hja. destruct Hja as [Hja | Hja]; [contradiction |].
  assert (Hia : (i < length cs)%nat).
  { apply firstn_incl in Hi. eapply Permutation_in in Hi; [| exact Hperm].
    apply in_seq in Hi. lia. }
  assert (Hs : StronglySorted
                 (fun i j => key_at (map Qopp sims) i <= key_at (map Qopp sims) j)
                 (firstn n a ++ skipn n a))
    by (rewrite firstn_skipn; apply argsort_sorted).
  pose proof (StronglySorted_app_cross _ _ _ Hs i j Hi Hja) as Hij.
  cbn beta in Hij. rewrite !key_at_opp in Hij.
  unfold sims in Hij. rewrite !key_at_similarities in Hij by assumption.
  lra.
Qed.

Lemma search_keeps_best_witness :
  exists (m : @model latin_counts) (idxs : list nat),
    @fit latin_counts (map text sample_chunks) = Some m /\
    @search latin_counts stable_argsort sample_index
      (lit "What does RAG do?") 1
    = Return (map (fun i => (nth i sample_chunks no_chunk,
                             @chunk_score latin_counts m
                               (lit "What does RAG do?")
                               (nth i sample_chunks no_chunk))) idxs) /\
    NoDup idxs /\
    forall i j,
      In i idxs -> (j < length sample_chunks)%nat -> ~ In j idxs ->
      @chunk_score latin_counts m (lit "What does RAG do?")
        (nth j sample_chunks no_chunk)
      <= @chunk_score latin_counts m (lit "What does RAG do?")
           (nth i sample_chunks no_chunk).
Proof.
  exact (search_keeps_best latin_counts stable_argsort stable_argsort_spec
           TfidfIndex_init sample_index sample_chunks
           (lit "What does RAG do?") 1%Z sample_index_built).
Defined.

(** ** OfflineAnswerer.answer: the context *)

Lemma join_cons (sep x : str) (l : list str) :
  join sep (x :: l) = x ++ concat (map (fun y => sep ++ y) l).
Proof.
  revert x. induction l as [| y l IH]; intros x.
  - cbn. now rewrite app_nil_r.
  - change (join sep (x :: y :: l)) with (x ++ sep ++ join sep (y :: l)).
    rewrite IH. cbn. now rewrite <- app_assoc.
Qed.

Section ContextFacts.
Context {U : Unicode}.

(** What the context loop returns, from any starting point. *)
Lemma take_context_inv (maxc : Z) (hits : list Hit) :
  forall (ctx0 : str) (chosen0 : list Hit) (ctx : str) (chosen : list Hit),
    take_context maxc hits ctx0 chosen0 = (ctx, chosen) ->
    exists taken rest,
      hits = taken ++ rest /\
      chosen = chosen0 ++ taken /\
      ctx = extend_context ctx0 taken /\
      (forall h, hd_error rest = Some h ->
         (Z.of_nat (length ctx) + Z.of_nat (length (snippet h)) + 1 > maxc)%Z) /\
      (taken <> [] -> (Z.of_nat (length ctx) <= maxc)%Z).
Proof.
  induction hits as [| [ch sc] hits IH]; intros ctx0 chosen0 ctx chosen H.
  - cbn in H. injection H as <- <-. exists [], []. cbn.
    rewrite app_nil_r. repeat split; try easy.
  - cbn in H.
    destruct (_ >? maxc)%Z eqn:E.
    + injection H as <- <-. exists [], ((ch, sc) :: hits). cbn.
      rewrite app_nil_r. repeat split; try easy.
      intros h Hh. injection Hh as <-.
      rewrite Z.gtb_ltb, Z.ltb_lt in E. unfold snippet. cbn [fst]. lia.
    + apply IH in H.
      destruct H as (taken & rest & -> & -> & -> & Hover & Hbound).
      exists ((ch, sc) :: taken), rest.
      rewrite <- app_assoc. repeat split; try easy.
      intros _. destruct taken as [| h taken]; [| apply Hbound; discriminate].
      cbn. rewrite Z.gtb_ltb, Z.ltb_ge in E.
      rewrite !length_app.
      destruct ctx0; cbn [length] in *; lia.
Qed.

Lemma extend_context_nonempty (ctx0 : str) (taken : list Hit) :
  ctx0 <> [] ->
  extend_context ctx0 taken
  = ctx0 ++ concat (map (fun h => [NEWLINE] ++ snippet h) taken).
Proof.
  revert ctx0. induction taken as [| h taken IH]; intros ctx0 Hne; cbn.
  - now rewrite app_nil_r.
  - unfold extend_context in IH. rewrite IH.
    + destruct ctx0; [congruence |]. cbn. now rewrite <- !app_assoc.
    + destruct ctx0; [congruence | discriminate].
Qed.

Lemma extend_context_join (taken : list Hit) :
  Forall (fun h => snippet h <> []) taken ->
  extend_context [] taken = join [NEWLINE] (map snippet taken).
Proof.
  destruct taken as [| h taken]; [reflexivity |].
  intros H. inversion H as [| ? ? Hh Hrest]; subst.
  change (extend_context [] (h :: taken))
    with (extend_context (snippet h) taken).
  rewrite extend_context_nonempty by assumption.
  cbn [map]. rewrite join_cons, map_map. reflexivity.
Qed.
End ContextFacts.

(** X16.  The context loop takes the hits in rank order and stops at
    the first one that does not fit: the chosen hits are a prefix of
    [hits], the hit right after that prefix (if any) would have
    overflowed [max_context_chars], and a non-empty choice gives a
    context of at most [max_context_chars] characters.  A smaller chunk
    further down the ranking is never used to fill the budget. *)
Theorem context_is_budgeted_prefix (U : Unicode) (maxc : Z) (hits : list Hit) :
  let ctx := fst (take_context maxc hits [] []) in
  let chosen := snd (take_context maxc hits [] []) in
  chosen = firstn (length chosen) hits /\
  ctx = extend_context [] chosen /\
  (chosen <> [] -> (Z.of_nat (length ctx) <= maxc)%Z) /\
  (forall h, nth_error hits (length chosen) = Some h ->
     (Z.of_nat (length ctx) + Z.of_nat (length (snippet h)) + 1 > maxc)%Z).
Proof.
  cbv zeta.
  destruct (take_context maxc hits [] []) as [ctx chosen] eqn:E.
  apply take_context_inv in E.
  destruct E as (taken & rest & -> & -> & -> & Hover & Hbound).
  cbn [fst snd app]. repeat split.
  - now rewrite firstn_app, Nat.sub_diag, firstn_all, app_nil_r.
  - exact Hbound.
  - intros h Hh. apply Hover.
    rewrite nth_error_app2, Nat.sub_diag in Hh by lia.
    destruct rest; [discriminate | exact Hh].
Qed.

Lemma context_is_budgeted_prefix_witness :
  let hits := [(chunk_a, 1); oversized_hit; (chunk_b, 0)] in
  snd (@take_context basic_latin 2000 hits [] []) = [(chunk_a, 1)] /\
  (Z.of_nat (length (fst (@take_context basic_latin 2000 hits [] []))) <= 2000)%Z.
Proof.
  intros hits.
  assert (Hc : snd (@take_context basic_latin 2000 hits [] []) = [(chunk_a, 1)])
    by (vm_compute; reflexivity).
  split; [exact Hc |].
  destruct (context_is_budgeted_prefix basic_latin 2000 hits)
    as (_ & _ & Hbound & _).
  apply Hbound. rewrite Hc. discriminate.
Defined.

(** X17.  When no hit has an empty stripped text, the context is the
    stripped texts of the chosen hits joined by single newlines. *)
Theorem context_is_joined_snippets (U : Unicode) (maxc : Z) (hits : list Hit) :
  Forall (fun h => snippet h <> []) hits ->
  fst (take_context maxc hits [] [])
  = join [NEWLINE] (map snippet (snd (take_context maxc hits [] []))).
Proof.
  intros Hne.
  destruct (take_context maxc hits [] []) as [ctx chosen] eqn:E.
  apply take_context_inv in E.
  destruct E as (taken & rest & -> & -> & -> & _).
  cbn [fst snd app]. apply extend_context_join.
  apply Forall_app in Hne. tauto.
Qed.

Lemma context_is_joined_snippets_witness :
  fst (@take_context basic_latin 2000 [(chunk_a, 1); (chunk_b, 0)] [] [])
  = text chunk_a ++ [NEWLINE] ++ text chunk_b.
Proof.
  rewrite (context_is_joined_snippets basic_latin 2000
             [(chunk_a, 1); (chunk_b, 0)]).
  - vm_compute. reflexivity.
  - repeat constructor; vm_compute; discriminate.
Defined.

(** ** OfflineAnswerer.answer: picking and rendering *)

Lemma str_eqb_eq (a b : str) : str_eqb a b = true <-> a = b.
Proof.
  revert b. induction a as [| x a IH]; intros [| y b]; cbn; try easy.
  unfold char_eqb. rewrite andb_true_iff, N.eqb_eq, IH.
  split; [intros [-> ->]; reflexivity | intros H; injection H; auto].
Qed.

Lemma startswith_spec (p s : str) :
  startswith p s = true <-> exists b, s = p ++ b.
Proof.
  revert s. induction p as [| x p IH]; intros s; cbn.
  - split; [intros _; now exists s | reflexivity].
  - destruct s as [| y s].
    + split; [discriminate | intros (b & H); discriminate].
    + unfold char_eqb. rewrite andb_true_iff, N.eqb_eq, IH. split.
      * intros (-> & b & ->). now exists b.
      * intros (b & H). injection H as -> ->. split; [reflexivity | now exists b].
Qed.

(** [contains s p] is Python's [p in s]: [p] occurs in [s]. *)
Lemma contains_spec (s p : str) :
  contains s p = true <-> exists a b, s = a ++ p ++ b.
Proof.
  induction s as [| y s IH].
  - cbn. rewrite orb_false_r, startswith_spec. split.
    + intros (b & H). now exists [], b.
    + intros (a & b & H). destruct a; [now exists b | discriminate].
  - cbn [contains]. rewrite orb_true_iff, startswith_spec, IH. split.
    + intros [(b & H) | (a & b & H)].
      * now exists [], b.
      * exists (y :: a), b. cbn. now rewrite H.
    + intros (a & b & H). destruct a as [| x a].
      * left. now exists b.
      * right. injection H as _ H. now exists a, b.
Qed.

Section PickFacts.
Context {U : Unicode}.

Lemma attribute_In (chosen : list Hit) (sent : str) (p : str * Chunk) :
  In p (attribute chosen sent) ->
  fst p = strip sent /\ fst p <> [] /\
  In (snd p) (map fst chosen) /\
  contains (text (snd p)) (fst p) = true.
Proof.
  unfold attribute.
  destruct (find _ chosen) as [h |] eqn:E; [| easy].
  intros [<- | []]. apply find_some in E. destruct E as [Hin Hc].
  cbn [fst snd]. destruct (strip sent) as [| x s]; [discriminate |].
  repeat split; [discriminate | now apply in_map | exact Hc].
Qed.

Lemma pick_In (terms : list str) (chosen : list Hit) (sentences : list str)
      (p : str * Chunk) :
  In p (pick terms chosen sentences) ->
  exists sent,
    In sent sentences /\ meets_threshold terms sent = true /\
    In p (attribute chosen sent).
Proof.
  unfold pick. rewrite in_flat_map. intros (sent & Hs & Hp).
  exists sent. destruct (meets_threshold terms sent); [auto | easy].
Qed.

Lemma take_context_chosen_incl (maxc : Z) (hits : list Hit) (h : Hit) :
  In h (snd (take_context maxc hits [] [])) -> In h hits.
Proof.
  destruct (take_context maxc hits [] []) as [ctx chosen] eqn:E.
  apply take_context_inv in E.
  destruct E as (taken & rest & -> & -> & _).
  cbn. intros H. apply in_or_app. now left.
Qed.
End PickFacts.

(** X18.  Every sentence picked from the context is grounded: it comes
    from a sentence of the context that meets the threshold, it is that
    sentence stripped and not empty, and it occurs literally in the
    text of the chunk it is attributed to, which is one of the chosen
    chunks. *)
Theorem picked_sentences_are_grounded (U : Unicode) (terms : list str)
        (chosen : list Hit) (sentences : list str) (p : str * Chunk) :
  In p (pick terms chosen sentences) ->
  exists sent,
    In sent sentences /\
    meets_threshold terms sent = true /\
    fst p = strip sent /\ fst p <> [] /\
    In (snd p) (map fst chosen) /\
    exists before after, text (snd p) = before ++ fst p ++ after.
Proof.
  intros Hp. apply pick_In in Hp. destruct Hp as (sent & Hs & Hm & Hp).
  apply attribute_In in Hp. destruct Hp as (H1 & H2 & H3 & H4).
  exists sent. repeat split; try assumption.
  now apply contains_spec.
Qed.

Lemma picked_sentences_are_grounded_witness :
  let terms := @word_set basic_latin (lit "What does RAG do?") in
  let p := (lit "RAG retrieves documents.", chunk_a) in
  In p (@pick basic_latin terms [(chunk_a, 1); (chunk_b, 0)]
          (@split_sentences basic_latin
             (text chunk_a ++ [NEWLINE] ++ text chunk_b))) /\
  exists before after, text chunk_a = before ++ fst p ++ after.
Proof.
  intros terms p.
  assert (Hin : In p (@pick basic_latin terms [(chunk_a, 1); (chunk_b, 0)]
                        (@split_sentences basic_latin
                           (text chunk_a ++ [NEWLINE] ++ text chunk_b))))
    by (vm_compute; tauto).
  split; [exact Hin |].
  destruct (picked_sentences_are_grounded basic_latin terms _ _ p Hin)
    as (sent & _ & _ & _ & _ & _ & Hocc).
  exact Hocc.
Defined.

(** X19.  A sentence meets the threshold only if it shares a word with
    the query: whatever the number of query terms, at least one of them
    is among the lowercase words of the sentence.  A query without any
    word therefore never picks a sentence. *)
Theorem threshold_needs_shared_word (U : Unicode) (terms : list str)
        (sent : str) :
  meets_threshold terms sent = true ->
  exists w, In w terms /\ In w (word_set sent).
Proof.
  unfold meets_threshold, inter_size. intros H. apply Z.leb_le in H.
  destruct (filter (fun x => existsb (str_eqb x) (word_set sent)) terms)
    as [| w l] eqn:E; [cbn in H; lia |].
  assert (Hw : In w (filter (fun x => existsb (str_eqb x) (word_set sent)) terms))
    by (rewrite E; now left).
  apply filter_In in Hw. destruct Hw as [Hw Hex].
  apply existsb_exists in Hex. destruct Hex as (y & Hy & Heq).
  apply str_eqb_eq in Heq. subst y. now exists w.
Qed.

Lemma threshold_needs_shared_word_witness :
  let terms := @word_set basic_latin (lit "What does RAG do?") in
  @meets_threshold basic_latin terms (lit "RAG retrieves documents.") = true /\
  exists w, In w terms /\
            In w (@word_set basic_latin (lit "RAG retrieves documents.")).
Proof.
  intros terms.
  assert (H : @meets_threshold basic_latin terms
                (lit "RAG retrieves documents.") = true)
    by (vm_compute; reflexivity).
  split; [exact H |].
  exact (threshold_needs_shared_word basic_latin terms _ H).
Defined.

(** X20.  What [answer] returns.  For no hit it is the fixed "nothing
    relevant" message.  Otherwise it is the header, between one and five
    bullet lines joined by newlines, and the footer; every bullet cites
    a chunk of [hits], so no chunk that was not retrieved is ever
    cited. *)
Theorem answer_cites_retrieved_chunks (U : Unicode) (a : OfflineAnswerer)
        (q : str) (hits : list Hit) (ans : str) :
  OfflineAnswerer_answer a q hits = Return ans ->
  (hits = [] -> ans = NOTHING_FOUND) /\
  (hits <> [] ->
   exists lines : list (str * Chunk),
     ans = HEADER ++ join [NEWLINE] (map bullet lines) ++ FOOTER /\
     (1 <= length lines <= 5)%nat /\
     Forall (fun p => In (snd p) (map fst hits)) lines).
Proof.
  intros H. split.
  - intros ->. cbn in H. now injection H as <-.
  - intros Hne. destruct hits as [| h0 hits]; [congruence |].
    unfold OfflineAnswerer_answer in H.
    pose proof (take_context_chosen_incl (max_context_chars a) (h0 :: hits))
      as Hincl.
    destruct (take_context (max_context_chars a) (h0 :: hits) [] [])
      as [ctx chosen].
    cbn [snd] in Hincl.
    set (picked := pick (word_set q) chosen (split_sentences ctx)) in H.
    assert (Hpicked : Forall (fun p => In (snd p) (map fst (h0 :: hits))) picked).
    { apply Forall_forall. intros p Hp. apply pick_In in Hp.
      destruct Hp as (sent & _ & _ & Hp). apply attribute_In in Hp.
      destruct Hp as (_ & _ & Hp & _). apply in_map_iff in Hp.
      destruct Hp as (h & <- & Hh). apply in_map. now apply Hincl. }
    assert (Hout : exists picked' : list (str * Chunk),
               ans = render picked' /\ picked' <> [] /\
               Forall (fun p => In (snd p) (map fst (h0 :: hits))) picked').
    { unfold bind in H. destruct picked as [| p0 picked].
      - destruct chosen as [| [top sc] chosen]; [discriminate |].
        destruct (split_sentences (strip (text top))) as [| first l];
          [discriminate |].
        cbv beta iota in H. injection H as <-.
        eexists. split; [reflexivity |].
        split; [discriminate |]. constructor; [| constructor].
        cbn [snd]. apply (in_map fst _ (top, sc)). apply Hincl. now left.
      - cbv beta iota in H. injection H as <-.
        eexists. split; [reflexivity |].
        split; [discriminate | exact Hpicked]. }
    destruct Hout as (picked' & -> & Hne' & Hall).
    exists (firstn 5 picked'). split; [reflexivity |]. split.
    + rewrite length_firstn. destruct picked'; [congruence | cbn [length]; lia].
    + apply Forall_forall. intros p Hp. apply firstn_incl in Hp.
      rewrite Forall_forall in Hall. now apply Hall.
Qed.

Lemma answer_cites_retrieved_chunks_witness :
  exists lines : list (str * Chunk),
    @OfflineAnswerer_answer basic_latin OfflineAnswerer_init
      (lit "What does RAG do?") [(chunk_a, 1); (chunk_b, 0)]
    = Return (HEADER ++ join [NEWLINE] (map bullet lines) ++ FOOTER) /\
    (1 <= length lines <= 5)%nat /\
    Forall (fun p => In (snd p) [chunk_a; chunk_b]) lines.
Proof.
  destruct (@OfflineAnswerer_answer basic_latin OfflineAnswerer_init
              (lit "What does RAG do?") [(chunk_a, 1); (chunk_b, 0)])
    as [ans | e] eqn:E; [| vm_compute in E; discriminate].
  destruct (answer_cites_retrieved_chunks basic_latin OfflineAnswerer_init
              (lit "What does RAG do?") [(chunk_a, 1); (chunk_b, 0)] ans E)
    as [_ H].
  destruct H as (lines & -> & Hlen & Hall); [discriminate |].
  now exists lines.
Defined.

(** ** OpenAIAnswerer.answer and RAGPipeline.query *)

(** X21.  The delegated answerer sends at most six context blocks: the
    hits after the sixth have no influence on the request, hence none
    on the answer. *)
Theorem openai_answer_uses_six_hits (U : Unicode) (C : ChatService)
        (a : OpenAIAnswerer) (q : str) (hits : list Hit) :
  OpenAIAnswerer_answer a q hits = OpenAIAnswerer_answer a q (firstn 6 hits).
Proof.
  unfold OpenAIAnswerer_answer.
  rewrite !slice_prefix by lia.
  change (Z.to_nat 6) with 6%nat.
  now rewrite <- firstn_map, firstn_firstn.
Qed.

Section QueryFacts.
Context {U : Unicode} {T : Tfidf} {AS : ArgSort} {C : ChatService}.

Lemma lstrip_length (t : str) : (length (lstrip t) <= length t)%nat.
Proof.
  induction t as [| x t IH]; cbn; [lia |].
  destruct (isspace x); cbn; lia.
Qed.

Lemma strip_length (t : str) : (length (strip t) <= length t)%nat.
Proof.
  unfold strip, rstrip. rewrite length_rev.
  etransitivity; [apply lstrip_length |]. rewrite length_rev.
  apply lstrip_length.
Qed.

Lemma load_text_length (fs : FileSystem) (c : LocalCorpus) (ch : Chunk) :
  (0 <= chunk_size c)%Z ->
  In ch (load fs c) ->
  (length (text ch) <= Z.to_nat (chunk_size c))%nat.
Proof.
  intros Hsize Hin. unfold load in Hin. apply in_flat_map in Hin.
  destruct Hin as (f & _ & Hin). apply file_chunks_In in Hin.
  destruct Hin as (_ & _ & Hnth). apply nth_error_In in Hnth.
  rewrite split_text_as_windows in Hnth by assumption.
  apply in_map_iff in Hnth. destruct Hnth as (j & <- & _).
  rewrite window_length. lia.
Qed.

Lemma query_inv (p : RAGPipeline) (q : str) (k : Z) (r : QueryResult) :
  RAGPipeline_query p q k = Return r ->
  exists hits,
    search (index p) q k = Return hits /\
    Answerer_answer (answerer p) q hits = Return (answer r) /\
    sources r
    = map (fun h : Hit =>
             mkSourceDict (doc_id (fst h)) (chunk_id (fst h)) (snd h)
                          (firstn 160 (text (fst h)))) hits.
Proof.
  unfold RAGPipeline_query, bind. intros H.
  destruct (search (index p) q k) as [hits | e]; [| discriminate].
  destruct (Answerer_answer (answerer p) q hits) as [ans | e] eqn:Ea;
    [| discriminate].
  injection H as <-. exists hits. cbn [answer sources].
  split; [reflexivity |]. split; [exact Ea |].
  apply map_ext. intros h. f_equal. now apply slice_prefix.
Qed.
End QueryFacts.

(** X22.  What [query] returns mirrors the hits of [search] one to one
    and in rank order: each source carries the document, the chunk
    index and the score of its hit, and as preview the first 160
    characters of the chunk text, so no preview is longer than that;
    the answer is the answerer's answer for those same hits. *)
Theorem query_sources_mirror_hits (U : Unicode) (T : Tfidf) (AS : ArgSort)
        (C : ChatService) (p : RAGPipeline) (q : str) (k : Z)
        (r : QueryResult) :
  RAGPipeline_query p q k = Return r ->
  exists hits : list Hit,
    search (index p) q k = Return hits /\
    Answerer_answer (answerer p) q hits = Return (answer r) /\
    map doc (sources r) = map (fun h => doc_id (fst h)) hits /\
    map chunk (sources r) = map (fun h => chunk_id (fst h)) hits /\
    map score (sources r) = map snd hits /\
    map preview (sources r) = map (fun h => firstn 160 (text (fst h))) hits /\
    Forall (fun s => (length (preview s) <= 160)%nat) (sources r).
Proof.
  intros H. apply query_inv in H. destruct H as (hits & Hs & Ha & ->).
  exists hits. rewrite !map_map. cbn [doc chunk score preview].
  repeat split; try assumption.
  apply Forall_map. cbn [preview]. apply Forall_forall. intros h _.
  apply firstn_le_length.
Qed.

Lemma query_sources_mirror_hits_witness :
  let p := @mkRAGPipeline latin_counts (LocalCorpus_init (lit "data"))
             sample_index (Offline OfflineAnswerer_init) in
  exists r,
    @RAGPipeline_query basic_latin latin_counts stable_argsort no_network
      p (lit "What does RAG do?") 3 = Return r /\
    map doc (sources r) = [lit "a.txt"; lit "b.txt"] /\
    Forall (fun s => (length (preview s) <= 160)%nat) (sources r).
Proof.
  intros p.
  destruct (@RAGPipeline_query basic_latin latin_counts stable_argsort
              no_network p (lit "What does RAG do?") 3) as [r | e] eqn:Hr;
    [| vm_compute in Hr; discriminate].
  exists r. split; [reflexivity |].
  destruct (query_sources_mirror_hits basic_latin latin_counts stable_argsort
              no_network p (lit "What does RAG do?") 3%Z r Hr)
    as (hits & Hs & _ & Hdoc & _ & _ & _ & Hprev).
  split; [| exact Hprev].
  rewrite Hdoc. vm_compute in Hs. injection Hs as <-. reflexivity.
Defined.

(** X23.  The offline pipeline with its default settings cannot fail
    in [query] once [build] has succeeded: every chunk [load] produced
    has at most 600 characters, so the top hit always fits the context
    budget of 2000 and the fallback always finds its chunk.  This holds
    for every query and every [k], zero and negative ones included. *)
Theorem default_offline_query_returns (U : Unicode) (T : Tfidf)
        (AS : ArgSort) (C : ChatService) (Hspec : ArgSortSpec AS)
        (env : Environ) (dir mdl : str) (fs : FileSystem)
        (p0 p : RAGPipeline) (q : str) (k : Z) :
  RAGPipeline_init env dir false mdl = Return p0 ->
  RAGPipeline_build fs p0 = (p, Return tt) ->
  exists r, RAGPipeline_query p q k = Return r.
Proof.
  intros Hinit Hbuild. cbn in Hinit. injection Hinit as <-.
  unfold RAGPipeline_build in Hbuild. cbn [corpus index answerer] in Hbuild.
  pose proof (@load_text_length U fs (LocalCorpus_init dir)) as Hlen.
  destruct (load fs (LocalCorpus_init dir)) as [| c0 cs] eqn:El;
    [discriminate |].
  destruct (TfidfIndex_build TfidfIndex_init (c0 :: cs)) as [idx res] eqn:Eb.
  injection Hbuild as <- ->.
  destruct (build_ok_inv _ _ _ Eb) as (m & _ & ->).
  unfold RAGPipeline_query. cbn [index answerer].
  rewrite search_scored.
  set (sims := similarities m _ q).
  assert (Hin : Forall (fun i => (i < length (c0 :: cs))%nat) (ranked sims k)).
  { pose proof (ranked_in_range sims k) as H. unfold sims in H.
    now rewrite similarities_length in H. }
  destruct (ranked sims k) as [| i idxs]; cbn [map bind Answerer_answer].
  - cbn. eauto.
  - inversion Hin as [| ? ? Hi _]; subst.
    destruct (@answer_fits U OfflineAnswerer_init q
                (nth i (c0 :: cs) no_chunk)
                (chunk_score m q (nth i (c0 :: cs) no_chunk))
                (map (fun j => (nth j (c0 :: cs) no_chunk,
                                chunk_score m q (nth j (c0 :: cs) no_chunk)))
                     idxs)) as [ans Hans].
    + assert (Hc : (length (text (nth i (c0 :: cs) no_chunk)) <= 600)%nat).
      { apply (Hlen (nth i (c0 :: cs) no_chunk)); [cbn; lia |].
        now apply nth_In. }
      pose proof (strip_length (text (nth i (c0 :: cs) no_chunk))) as Hs.
      cbn [max_context_chars OfflineAnswerer_init]. lia.
    + rewrite Hans. cbn. eauto.
Qed.

Lemma default_offline_query_returns_witness :
  let p0 := @mkRAGPipeline latin_counts (LocalCorpus_init (lit "data"))
              TfidfIndex_init (Offline OfflineAnswerer_init) in
  let p := fst (@RAGPipeline_build basic_latin latin_counts sample_fs p0) in
  @RAGPipeline_init latin_counts env_without_key (lit "data") false
    (lit "gpt-4o-mini") = Return p0 /\
  @RAGPipeline_build basic_latin latin_counts sample_fs p0 = (p, Return tt) /\
  exists r,
    @RAGPipeline_query basic_latin latin_counts stable_argsort no_network
      p (lit "What does RAG do?") 3 = Return r.
Proof.
  intros p0 p.
  assert (Hinit : @RAGPipeline_init latin_counts env_without_key (lit "data")
                    false (lit "gpt-4o-mini") = Return p0) by reflexivity.
  assert (Hb : @RAGPipeline_build basic_latin latin_counts sample_fs p0
               = (p, Return tt)) by (vm_compute; reflexivity).
  split; [exact Hinit |]. split; [exact Hb |].
  exact (default_offline_query_returns basic_latin latin_counts stable_argsort
           no_network stable_argsort_spec env_without_key (lit "data")
           (lit "gpt-4o-mini") sample_fs p0 p (lit "What does RAG do?") 3%Z
           Hinit Hb).
Defined.
